(** * markov.py: frequency tables, stream generation and prediction

    A shallow embedding of [src/markov.py].  Python's insertion-ordered
    [dict] / [Counter] / [defaultdict] objects are association lists in
    insertion order (the order decides both [max] and [random.choice]);
    the generator is a small machine with an explicit program point; the
    global [random] module is a list of pending raw draws. *)

From Stdlib Require Import List Arith ZArith Lia Bool.
From Stdlib Require String.
Import ListNotations.

Set Implicit Arguments.

(** ** Exceptions and results *)

Inductive exn : Type :=
| IndexError
| ValueError
| StopIteration.

Inductive result (A : Type) : Type :=
| Ret (a : A)
| Raise (e : exn).

Arguments Ret {A} a.
Arguments Raise {A} e.

(** ** The [random] module

    The state of the generator is the list of raw draws still to come; an
    exhausted list keeps answering 0.  [randbelow n] is the index drawn by
    [random.choice] on a sequence of length [n]. *)

Definition Rng := list nat.

Definition randbelow (n : nat) (g : Rng) : nat * Rng :=
  match g with
  | [] => (0, [])
  | d :: g' => (d mod n, g')
  end.

(** ** Symbols

    A symbol type only has to be usable as a dictionary key: equality must
    be decidable (the [__eq__] / [__hash__] pair of the source). *)

Class Hashable (T : Type) : Type :=
  eq_dec : forall x y : T, {x = y} + {x <> y}.

Section Markov.

Context {T : Type} {T_eq_dec : Hashable T}.

Definition tuple_eq_dec : forall x y : list T, {x = y} + {x <> y} :=
  list_eq_dec eq_dec.

(** ** group_by_n (markov.py, lines 8-22) *)

(** [tee(iterator, n)]: [n] independent copies. *)
Definition tee (iterator : list T) (n : nat) : list (list T) :=
  repeat iterator n.

(** Lines 16-21: copy number [i] is advanced past [i] items (copy 0 is
    skipped by [continue]; for [i >= 1] the inner loop consumes items
    [0 .. i-1] and then breaks, or exhausts the copy). *)
Definition advance (i : nat) (iterator : list T) : list T :=
  match i with
  | 0 => iterator
  | S _ => skipn i iterator
  end.

(** One round of [zip]: take the next item of every iterator, in order;
    [None] as soon as one of them is exhausted. *)
Fixpoint next_all (its : list (list T)) : option (list T * list (list T)) :=
  match its with
  | [] => Some ([], [])
  | [] :: _ => None
  | (x :: it') :: rest =>
      match next_all rest with
      | None => None
      | Some (xs, rest') => Some (x :: xs, it' :: rest')
      end
  end.

(** [zip( *its )]: nothing for zero iterators, otherwise tuples until one
    iterator runs out. *)
Fixpoint zip_star (fuel : nat) (its : list (list T)) : list (list T) :=
  match its, fuel with
  | [], _ => []
  | _, 0 => []
  | _, S fuel' =>
      match next_all its with
      | None => []
      | Some (tup, its') => tup :: zip_star fuel' its'
      end
  end.

Definition group_by_n (iterator : list T) (n : nat) : list (list T) :=
  let parallels :=
    map (fun p => advance (fst p) (snd p))
        (combine (seq 0 n) (tee iterator n)) in
  zip_star (S (length iterator)) parallels.

(** ** Counter and defaultdict(Counter) *)

Definition Counter := list (T * nat).
Definition Table := list (list T * Counter).

(** [count[x]]: 0 for a missing key, which is not inserted. *)
Fixpoint counter_get (count : Counter) (x : T) : nat :=
  match count with
  | [] => 0
  | (y, c) :: rest => if eq_dec y x then c else counter_get rest x
  end.

(** [count[x] = v]: an existing key keeps its place, a new one goes last. *)
Fixpoint counter_set (count : Counter) (x : T) (v : nat) : Counter :=
  match count with
  | [] => [(x, v)]
  | (y, c) :: rest =>
      if eq_dec y x then (y, v) :: rest else (y, c) :: counter_set rest x v
  end.

(** [count[x] += 1] *)
Definition counter_incr (count : Counter) (x : T) : Counter :=
  counter_set count x (counter_get count x + 1).

Definition counter_keys (count : Counter) : list T := map fst count.

Fixpoint table_find (frequencies : Table) (key : list T) : option Counter :=
  match frequencies with
  | [] => None
  | (k, c) :: rest =>
      if tuple_eq_dec k key then Some c else table_find rest key
  end.

Fixpoint table_set (frequencies : Table) (key : list T) (v : Counter) : Table :=
  match frequencies with
  | [] => [(key, v)]
  | (k, c) :: rest =>
      if tuple_eq_dec k key then (k, v) :: rest
      else (k, c) :: table_set rest key v
  end.

(** [frequencies[key]] on the [defaultdict(Counter)]: a missing key is
    inserted with an empty [Counter]; the table after the lookup is
    returned with the counter. *)
Definition table_getitem (frequencies : Table) (key : list T)
  : Counter * Table :=
  match table_find frequencies key with
  | Some c => (c, frequencies)
  | None => ([], frequencies ++ [(key, [])])
  end.

Definition table_keys (frequencies : Table) : list (list T) :=
  map fst frequencies.

(** The successor map read without touching the table. *)
Definition successors (frequencies : Table) (key : list T) : Counter :=
  match table_find frequencies key with
  | Some c => c
  | None => []
  end.

(** ** calculate_frequencies (lines 25-37) *)

(** The unpacking [( *pre, next_word )]. *)
Fixpoint unpack (tup : list T) : option (list T * T) :=
  match tup with
  | [] => None
  | [x] => Some ([], x)
  | x :: rest =>
      match unpack rest with
      | None => None
      | Some (pre, next_word) => Some (x :: pre, next_word)
      end
  end.

(** Line 36: [frequencies[tuple(pre)][next_word] += 1]. *)
Definition record (frequencies : Table) (pre : list T) (next_word : T)
  : Table :=
  let (count, frequencies') := table_getitem frequencies pre in
  table_set frequencies' pre (counter_incr count next_word).

Definition record_tuple (frequencies : Table) (tup : list T) : Table :=
  match unpack tup with
  | None => frequencies
  | Some (pre, next_word) => record frequencies pre next_word
  end.

Definition calculate_frequencies (history : list T) (length_of_history : nat)
  : Table :=
  fold_left record_tuple (group_by_n history (length_of_history + 1)) [].

(** ** Random choices *)

(** [random.choice(seq)]: [IndexError] on an empty sequence, else the item
    at a drawn index. *)
Definition random_choice {X : Type} (sq : list X) (g : Rng)
  : result X * Rng :=
  match sq with
  | [] => (Raise IndexError, g)
  | x :: _ =>
      let (idx, g') := randbelow (length sq) g in (Ret (nth idx sq x), g')
  end.

(** The bisection of [random.choices] over the cumulative weights: the
    first option whose cumulative weight exceeds the draw [d]. *)
Fixpoint pick_weighted (options : list T) (weights : list nat) (d : nat)
  (dflt : T) : T :=
  match options, weights with
  | x :: options', w :: weights' =>
      if d <? w then x else pick_weighted options' weights' (d - w) x
  | _, _ => dflt
  end.

(** [random.choices(options, weights)] with the default [k=1]: a list of
    one item.  An empty population fails with [IndexError] (reading
    [cum_weights[-1]]); a zero total is refused with [ValueError]. *)
Definition random_choices (options : list T) (weights : list nat) (g : Rng)
  : result (list T) * Rng :=
  match options with
  | [] => (Raise IndexError, g)
  | x :: _ =>
      let total := list_sum weights in
      if total =? 0 then (Raise ValueError, g)
      else
        let (d, g') := randbelow total g in
        (Ret [pick_weighted options weights d x], g')
  end.

(** ** predict (lines 101-113) *)

(** What is printed on [stderr]. *)
Inductive msg : Type :=
| Err
| IDK (recent : list T).

(** The world outside the table: the random source and [stderr]. *)
Record World : Type := mkWorld { rng : Rng; stderr : list msg }.

Definition print (m : msg) (w : World) : World :=
  mkWorld (rng w) (stderr w ++ [m]).

Definition with_rng (g : Rng) (w : World) : World := mkWorld g (stderr w).

(** [max(xs, key=key)] after its first item: a later item replaces the
    best one only when its key is strictly greater. *)
Fixpoint max_from (key : T -> nat) (best : T) (xs : list T) : T :=
  match xs with
  | [] => best
  | x :: xs' =>
      if key best <? key x then max_from key x xs' else max_from key best xs'
  end.

Definition py_max (key : T -> nat) (xs : list T) : result T :=
  match xs with
  | [] => Raise ValueError
  | x :: xs' => Ret (max_from key x xs')
  end.

(** [predict(frequencies, recently_seen)]: the result, the table as the
    lookup leaves it, and the world. *)
Definition predict (frequencies : Table) (recently_seen : list T) (w : World)
  : result T * Table * World :=
  let (count, frequencies') := table_getitem frequencies recently_seen in
  match py_max (counter_get count) (counter_keys count) with
  | Ret x => (Ret x, frequencies', w)
  | Raise ValueError =>
      let w1 := print Err w in
      let (r, g) := random_choice recently_seen (rng w1) in
      (r, frequencies', with_rng g w1)
  | Raise e => (Raise e, frequencies', w)
  end.

(** The slice [history[-k:]]: [-0] is [0], so [k = 0] takes everything. *)
Definition slice_last (history : list T) (k : nat) : list T :=
  match k with
  | 0 => history
  | S _ => skipn (length history - k) history
  end.

(** predict_from_history (lines 89-98) *)
Definition predict_from_history (history : list T) (length_of_history : nat)
  (w : World) : result T * World :=
  let frequencies := calculate_frequencies history length_of_history in
  let '(r, _, w') :=
    predict frequencies (slice_last history length_of_history) w in
  (r, w').

(** ** generate_random_stream_from_frequencies (lines 52-86) *)

(** [deque.append] with [maxlen]: append, then drop the oldest item when
    the bound is exceeded. *)
Definition deque_append (maxlen : nat) (d : list T) (x : T) : list T :=
  let d' := d ++ [x] in
  if maxlen <? length d' then tl d' else d'.

(** The four [for item in ...: yield item; recent.append(item)] loops. *)
Inductive loop : Type :=
| LInitial                                        (* line 63 *)
| LMixup (options : list T) (weights : list nat)  (* line 75 *)
| LChoices                                        (* line 79 *)
| LRecovery.                                      (* line 84 *)

(** Where the generator's frame stands. *)
Inductive point : Type :=
| Entry                                             (* not started *)
| For (l : loop) (rest : list T)                    (* head of a for loop *)
| Yielded (l : loop) (item : T) (rest : list T)     (* suspended at yield *)
| While                                             (* line 68 *)
| Closed.                                           (* left by an exception *)

(** The frame of one stream, the table it reads and the world.  [emitted]
    and [context] are not variables of the source: [emitted] is every item
    yielded so far and [context] the key of the last lookup on line 69. *)
Record Gen : Type := mkGen {
  frequencies : Table;
  length_of_history : nat;
  mixup_period : option Z;
  known_subsequences : list (list T);
  recent : list T;
  i : Z;
  at_ : point;
  world : World;
  emitted : list T;
  context : list T
}.

Definition goto (p : point) (s : Gen) : Gen :=
  mkGen (frequencies s) (length_of_history s) (mixup_period s)
        (known_subsequences s) (recent s) (i s) p (world s)
        (emitted s) (context s).

Definition with_world (w : World) (s : Gen) : Gen :=
  mkGen (frequencies s) (length_of_history s) (mixup_period s)
        (known_subsequences s) (recent s) (i s) (at_ s) w
        (emitted s) (context s).

Definition with_recent (r : list T) (s : Gen) : Gen :=
  mkGen (frequencies s) (length_of_history s) (mixup_period s)
        (known_subsequences s) r (i s) (at_ s) (world s)
        (emitted s) (context s).

Definition with_i (n : Z) (s : Gen) : Gen :=
  mkGen (frequencies s) (length_of_history s) (mixup_period s)
        (known_subsequences s) (recent s) n (at_ s) (world s)
        (emitted s) (context s).

Definition with_emitted (e : list T) (s : Gen) : Gen :=
  mkGen (frequencies s) (length_of_history s) (mixup_period s)
        (known_subsequences s) (recent s) (i s) (at_ s) (world s)
        e (context s).

(** The call [generate_random_stream_from_frequencies(...)]: nothing of
    the body runs before the first [next].  The locals are not bound yet;
    the frame starts with empty lists for them and 0 for [i]. *)
Definition generate (frequencies : Table) (length_of_history : nat)
  (mixup_period : option Z) (w : World) : Gen :=
  mkGen frequencies length_of_history mixup_period [] [] 0%Z Entry w [] [].

(** What one move of the frame does. *)
Inductive moved : Type :=
| Go (s : Gen)
| Yield (item : T) (s : Gen)
| Throw (e : exn) (s : Gen).

(** [for item in random.choice(known_subsequences)], entering loop [l]. *)
Definition seed (l : loop) (s : Gen) : moved :=
  match random_choice (known_subsequences s) (rng (world s)) with
  | (Ret c, g) => Go (goto (For l c) (with_world (with_rng g (world s)) s))
  | (Raise e, _) => Throw e (goto Closed s)
  end.

(** Lines 78-86: the [try] around [random.choices] and its handler. *)
Definition try_choices (options : list T) (weights : list nat) (s : Gen)
  : moved :=
  match random_choices options weights (rng (world s)) with
  | (Ret items, g) =>
      Go (goto (For LChoices items) (with_world (with_rng g (world s)) s))
  | (Raise IndexError, _) =>
      seed LRecovery (with_world (print (IDK (recent s)) (world s)) s)
  | (Raise e, _) => Throw e (goto Closed s)
  end.

(** Line 74: [mixup_period and i % mixup_period == 0]. *)
Definition mixup_due (mixup_period : option Z) (i : Z) : bool :=
  match mixup_period with
  | None => false
  | Some m => negb (m =? 0)%Z && (i mod m =? 0)%Z
  end.

Definition step (s : Gen) : moved :=
  match at_ s with
  | Entry =>
      (* lines 61-63 *)
      let s1 :=
        mkGen (frequencies s) (length_of_history s) (mixup_period s)
              (table_keys (frequencies s)) [] (i s) (at_ s) (world s)
              (emitted s) (context s) in
      seed LInitial s1
  | For l (item :: rest) =>
      Yield item (goto (Yielded l item rest)
                       (with_emitted (emitted s ++ [item]) s))
  | Yielded l item rest =>
      Go (goto (For l rest)
               (with_recent
                  (deque_append (length_of_history s) (recent s) item) s))
  | For LInitial [] => Go (goto While (with_i 0%Z s))      (* line 67 *)
  | For (LMixup options weights) [] => try_choices options weights s
  | For _ [] => Go (goto While s)
  | While =>
      (* lines 69-74 *)
      let (count, frequencies') :=
        table_getitem (frequencies s) (recent s) in
      let options := counter_keys count in
      let weights := map (counter_get count) options in
      let s1 :=
        mkGen frequencies' (length_of_history s) (mixup_period s)
              (known_subsequences s) (recent s) (i s) (at_ s) (world s)
              (emitted s) (recent s) in
      if mixup_due (mixup_period s) (i s)
      then seed (LMixup options weights) s1
      else try_choices options weights s1
  | Closed => Throw StopIteration s
  end.

(** The result of [next(gen)]. *)
Inductive pulled : Type :=
| Item (item : T) (s : Gen)
| Error (e : exn) (s : Gen)
| Diverges.

(** [next(gen)]: run the frame to its next [yield] or exception. *)
Fixpoint next (fuel : nat) (s : Gen) : pulled :=
  match fuel with
  | 0 => Diverges
  | S fuel' =>
      match step s with
      | Go s' => next fuel' s'
      | Yield item s' => Item item s'
      | Throw e s' => Error e s'
      end
  end.

(** How a run of several pulls ends. *)
Inductive ending : Type :=
| Live (s : Gen)
| Died (e : exn) (s : Gen)
| Hung.

(** [islice(gen, n)]: the items of [n] successive pulls and the frame
    they leave; an exception ends the run. *)
Fixpoint take (fuel : nat) (n : nat) (s : Gen) : list T * ending :=
  match n with
  | 0 => ([], Live s)
  | S n' =>
      match next fuel s with
      | Item x s' => let (xs, r) := take fuel n' s' in (x :: xs, r)
      | Error e s' => ([], Died e s')
      | Diverges => ([], Hung)
      end
  end.

(** ** Vocabulary of the properties *)

(** The block of [n] items of [sq] that starts at position [p]. *)
Definition window_at (sq : list T) (n p : nat) : list T :=
  firstn n (skipn p sq).

(** All the blocks of [n] items, by starting position. *)
Definition windows (sq : list T) (n : nat) : list (list T) :=
  map (window_at sq n) (seq 0 (length sq + 1 - n)).

Definition tuple_eqb (x y : list T) : bool :=
  if tuple_eq_dec x y then true else false.

(** The positions where [c] stands as a block of [k] items followed by one
    more item. *)
Definition context_positions (history : list T) (k : nat) (c : list T)
  : list nat :=
  filter (fun p => tuple_eqb (window_at history k p) c)
         (seq 0 (length history - k)).

(** The positions where [c] stands followed by [s]. *)
Definition followed_positions (history : list T) (k : nat) (c : list T)
  (s : T) : list nat :=
  filter (fun p => tuple_eqb (window_at history (k + 1) p) (c ++ [s]))
         (seq 0 (length history - k)).

(** The sum of the counts of a successor map. *)
Definition total (count : Counter) : nat := list_sum (map snd count).

(** The last [k] items of a sequence (all of it when it is shorter). *)
Definition last_k (history : list T) (k : nat) : list T :=
  skipn (length history - k) history.

(** The frame moves from one state to another, yielding [out] on the way
    and raising nothing. *)
Inductive steps : Gen -> list T -> Gen -> Prop :=
| steps_refl s : steps s [] s
| steps_go s s1 s2 out :
    step s = Go s1 -> steps s1 out s2 -> steps s out s2
| steps_yield s item s1 s2 out :
    step s = Yield item s1 -> steps s1 out s2 -> steps s (item :: out) s2.

(** The loops entered through [random.choice(known_subsequences)]. *)
Definition is_seed (l : loop) : bool :=
  match l with
  | LChoices => false
  | _ => true
  end.

Definition suspended (s : Gen) : bool :=
  match at_ s with
  | Yielded _ _ _ => true
  | _ => false
  end.

(** The move from [s] to [s1] enters loop [l] over the fresh list [c]
    (and does not just resume it after a [yield]). *)
Definition enters (s : Gen) (l : loop) (c : list T) (s1 : Gen) : Prop :=
  suspended s = false /\ step s = Go s1 /\ at_ s1 = For l c.

(** What a table keeps through lookups: every successor map (an absent
    key reads as the empty map) and every key. *)
Definition stable (t t' : Table) : Prop :=
  (forall c, successors t' c = successors t c)
  /\ (forall c, In c (table_keys t) -> In c (table_keys t')).

(** The state a move leaves. *)
Definition state_of (m : moved) : Gen :=
  match m with
  | Go s => s
  | Yield _ s => s
  | Throw _ s => s
  end.

(** The table a run of pulls leaves ([d] when the run never returns). *)
Definition table_after (e : ending) (d : Table) : Table :=
  match e with
  | Live s => frequencies s
  | Died _ s => frequencies s
  | Hung => d
  end.

(** What holds of every state of a stream started on [table] with order
    [k]: the order and the bound of the buffer are kept, and once the body
    has started the known contexts are the keys the table had then. *)
Definition well_formed (table : Table) (k : nat) (s : Gen) : Prop :=
  length_of_history s = k
  /\ length (recent s) <= k
  /\ match at_ s with
     | Entry => frequencies s = table
     | _ => known_subsequences s = table_keys table
     end.

Definition is_mixup (l : loop) : bool :=
  match l with
  | LMixup _ _ => true
  | _ => false
  end.

(** What holds of every state of a stream that never mixes up: [i] is 0,
    and the buffer (with the item pending at a [yield]) is the last [k]
    items yielded. *)
Definition continuous (mixup : option Z) (k : nat) (s : Gen) : Prop :=
  i s = 0%Z /\ mixup_period s = mixup /\ length_of_history s = k
  /\ match at_ s with
     | Entry => emitted s = []
     | For l _ => recent s = last_k (emitted s) k /\ is_mixup l = false
     | Yielded l item _ =>
         deque_append k (recent s) item = last_k (emitted s) k
         /\ is_mixup l = false
     | While => recent s = last_k (emitted s) k
     | Closed => True
     end.

(** Counting with indicators. *)
Definition hit (b : bool) : nat := if b then 1 else 0.

(** Whether a recorded tuple has [c] before its last item. *)
Definition prefix_hit (c tup : list T) : nat :=
  match unpack tup with
  | Some (pre, _) => hit (tuple_eqb pre c)
  | None => 0
  end.

End Markov.

Inductive Sym : Type := A | B | C.

#[export] Instance Sym_eq_dec : Hashable Sym.
Proof. unfold Hashable. decide equality. Defined.

Definition w0 (g : Rng) : @World Sym := mkWorld g [].

(** The table of [A, B, A] with order 1: (A) -> {B: 1}, (B) -> {A: 1}. *)
Definition t1 : @Table Sym := calculate_frequencies [A; B; A] 1.

(** A stream over [t1] with [mixup_period = 2]; the draws pick context (A)
    for the initial seed and context (B) for the first re-seed. *)
Definition mixup_run : @Gen Sym := generate t1 1 (Some 2%Z) (w0 [0; 1; 0]).

(** A frame of [mixup_run]: program point, buffer, pending draws, items
    yielded so far, key of the last lookup. *)
Definition frame (p : @point Sym) (r : list Sym) (g : Rng) (e c : list Sym)
  : @Gen Sym :=
  mkGen t1 1 (Some 2%Z) [[A]; [B]] r 0%Z p (w0 g) e c.


(** * Further vocabulary *)

Section MarkovMore.

Context {T : Type} {T_eq_dec : Hashable T}.

(** The sum of all the counts of a table. *)
Definition grand_total (t : @Table T) : nat :=
  list_sum (map (fun e => total (snd e)) t).

(** generate_random_stream (lines 40-49): the table is built from the
    source, then the stream over it is delegated to by [yield from]. *)
Definition generate_random_stream (source_stream : list T)
  (length_of_history : nat) (mixup_period : option Z) (w : World) : Gen :=
  let frequencies := calculate_frequencies source_stream length_of_history in
  generate frequencies length_of_history mixup_period w.

(** What holds of every state of any stream: the buffer (with the item
    pending at a [yield]) is the last [k] items yielded. *)
Definition tracking (k : nat) (s : @Gen T) : Prop :=
  length_of_history s = k
  /\ match at_ s with
     | Entry => emitted s = []
     | For _ _ => recent s = last_k (emitted s) k
     | Yielded _ item _ =>
         deque_append k (recent s) item = last_k (emitted s) k
     | While => recent s = last_k (emitted s) k
     | Closed => True
     end.

(** Every symbol a table holds, in a key or as a successor of a key. *)
Definition symbols (t : @Table T) : list T :=
  concat (table_keys t)
  ++ concat (map (fun c => counter_keys (successors t c)) (table_keys t)).

(** The items a frame still holds to yield or to sample from. *)
Definition loop_options (l : @loop T) : list T :=
  match l with
  | LMixup options _ => options
  | _ => []
  end.

Definition pending (s : @Gen T) : list T :=
  match at_ s with
  | For l rest => rest ++ loop_options l
  | Yielded l item rest => item :: rest ++ loop_options l
  | _ => []
  end.

(** What holds of every state of a stream over [t]: whatever it has
    yielded, holds pending or can look up is a symbol of [t]. *)
Definition within (t : @Table T) (s : @Gen T) : Prop :=
  (forall x, In x (emitted s) -> In x (symbols t))
  /\ (forall x, In x (pending s) -> In x (symbols t))
  /\ (forall c, successors (frequencies s) c = successors t c)
  /\ match at_ s with
     | Entry => frequencies s = t
     | _ => known_subsequences s = table_keys t
     end.

(** A table a stream of order [k] can run on for ever: it has a key, its
    keys are [k]-tuples, a successor map that is not empty has a positive
    total count, and for order 0 the empty context has successors. *)
Definition good_table (t : @Table T) (k : nat) : Prop :=
  table_keys t <> []
  /\ (forall c, In c (table_keys t) -> length c = k)
  /\ (forall c,
        successors t c <> [] ->
        list_sum (map (counter_get (successors t c))
                      (counter_keys (successors t c))) <> 0)
  /\ (k = 0 -> successors t [] <> []).

(** The options a mixup loop carries were read from the table. *)
Definition sampled_from (t : @Table T) (k : nat) (l : @loop T) : Prop :=
  match l with
  | LMixup options weights =>
      exists c,
        options = counter_keys (successors t c)
        /\ weights = map (counter_get (successors t c)) options
        /\ (k = 0 -> options <> [])
  | _ => True
  end.

(** What holds of every state of a stream on a good table. *)
Definition alive (t : @Table T) (k : nat) (s : @Gen T) : Prop :=
  length_of_history s = k
  /\ length (recent s) <= k
  /\ (forall c, successors (frequencies s) c = successors t c)
  /\ match at_ s with
     | Entry => frequencies s = t
     | Closed => False
     | For l _ => known_subsequences s = table_keys t /\ sampled_from t k l
     | Yielded l _ _ =>
         known_subsequences s = table_keys t /\ sampled_from t k l
     | While => known_subsequences s = table_keys t
     end.

(** A bound on the moves a frame makes before its next [yield]. *)
Definition rank (s : @Gen T) : nat :=
  match at_ s with
  | For _ (_ :: _) => 0
  | For (LMixup _ _) [] => 1
  | While => 2
  | For _ [] => 3
  | Yielded _ _ _ => 4
  | Entry => 4
  | Closed => 0
  end.

(** The frame with its [mixup_period] replaced. *)
Definition with_mixup (m : option Z) (s : @Gen T) : @Gen T :=
  mkGen (frequencies s) (length_of_history s) m
        (known_subsequences s) (recent s) (i s) (at_ s) (world s)
        (emitted s) (context s).

Definition lift (f : @Gen T -> @Gen T) (m : @moved T) : @moved T :=
  match m with
  | Go s => Go (f s)
  | Yield item s => Yield item (f s)
  | Throw e s => Throw e (f s)
  end.

End MarkovMore.


(** * The adapters: markov_music.py *)

(** Exceptions of the adapters: those of the core, and the [KeyError] of
    a plain [dict]. *)
Inductive failure : Type :=
| Core (e : exn)
| KeyError.

Section Dict.

Context {K V : Type} {K_eq_dec : Hashable K}.

(** [d[key]] on a plain [dict]: [None] stands for [KeyError]. *)
Fixpoint dict_get (d : list (K * V)) (key : K) : option V :=
  match d with
  | [] => None
  | (k, v) :: rest => if eq_dec k key then Some v else dict_get rest key
  end.

(** [d[key] = v] *)
Fixpoint dict_set (d : list (K * V)) (key : K) (v : V) : list (K * V) :=
  match d with
  | [] => [(key, v)]
  | (k, v0) :: rest =>
      if eq_dec k key then (k, v) :: rest else (k, v0) :: dict_set rest key v
  end.

End Dict.

Section Music.

(** A note is read through its [pitch] and its [duration] only. *)
Context {P D : Type} {P_eq_dec : Hashable P} {D_eq_dec : Hashable D}.

(** [Counter(iterable)] *)
Definition counter_of (xs : list D) : @Counter D :=
  fold_left counter_incr xs [].

(** [i.pitch == pitch] *)
Definition has_pitch (pitch : P) (n : P * D) : bool :=
  if eq_dec (fst n) pitch then true else false.

(** generate_rhythms, lines 129-131: for every pitch of the set of the
    pitches of [notes] (a set iterates in no particular order; the order
    of the keys of a [dict] does not show in a lookup), the counter of the
    durations of the notes of that pitch. *)
Definition rhythm_frequencies (notes : list (P * D))
  : list (P * @Counter D) :=
  fold_left
    (fun frequencies pitch =>
       dict_set frequencies pitch
         (counter_of (map snd (filter (has_pitch pitch) notes))))
    (nodup eq_dec (map fst notes)) [].

(** Lines 134-137, for one performed pitch: the note yielded, or the
    exception raised. *)
Definition rhythm_for (frequencies : list (P * @Counter D)) (pitch : P)
  (g : Rng) : (P * D + failure) * Rng :=
  match dict_get frequencies pitch with
  | None => (inr KeyError, g)
  | Some count =>
      let possible_rhythms := counter_keys count in
      let weights := map (counter_get count) possible_rhythms in
      match random_choices possible_rhythms weights g with
      | (Ret (d :: _), g') => (inl (pitch, d), g')
      | (Ret [], g') => (inr (Core IndexError), g')
      | (Raise e, g') => (inr (Core e), g')
      end
  end.

Fixpoint rhythms_loop (frequencies : list (P * @Counter D))
  (performed_pitches : list P) (g : Rng)
  : list (P * D) * option failure * Rng :=
  match performed_pitches with
  | [] => ([], None, g)
  | pitch :: rest =>
      match rhythm_for frequencies pitch g with
      | (inl note, g') =>
          let '(notes, f, g'') := rhythms_loop frequencies rest g' in
          (note :: notes, f, g'')
      | (inr f, g') => ([], Some f, g')
      end
  end.

(** generate_rhythms (lines 122-137) pulled to its end over a list of
    performed pitches: the notes yielded, the exception that ended it if
    any, and the random source. *)
Definition generate_rhythms (notes : list (P * D))
  (performed_pitches : list P) (g : Rng)
  : list (P * D) * option failure * Rng :=
  rhythms_loop (rhythm_frequencies notes) performed_pitches g.

(** The result of one pull from a stream of notes. *)
Inductive pulled_note (S : Type) : Type :=
| Note (n : P * D) (s : S)
| Failed (f : failure)
| Hangs.

Arguments Note {S} n s.
Arguments Failed {S} f.
Arguments Hangs {S}.

(** generate_random_music_dependent_duration (lines 166-177): one pull
    takes the next pitch of the stream of pitches and draws a duration
    for it; the two share the random source. *)
Definition dependent_duration (starting_notes : list (P * D))
  (length_of_history : nat) (mixup_period : option Z) (w : @World P)
  : @Gen P :=
  generate_random_stream (map fst starting_notes) length_of_history
    mixup_period w.

Definition dependent_next (starting_notes : list (P * D)) (fuel : nat)
  (pitches : @Gen P) : pulled_note (@Gen P) :=
  match next fuel pitches with
  | Item pitch pitches' =>
      match rhythm_for (rhythm_frequencies starting_notes) pitch
                       (rng (world pitches')) with
      | (inl note, g) =>
          Note note (with_world (with_rng g (world pitches')) pitches')
      | (inr f, _) => Failed f
      end
  | Error e _ => Failed (Core e)
  | Diverges => Hangs
  end.

Fixpoint dependent_take (starting_notes : list (P * D)) (fuel n : nat)
  (pitches : @Gen P) : list (P * D) * option (pulled_note (@Gen P)) :=
  match n with
  | 0 => ([], None)
  | S n' =>
      match dependent_next starting_notes fuel pitches with
      | Note note pitches' =>
          let (notes, r) := dependent_take starting_notes fuel n' pitches' in
          (note :: notes, r)
      | r => ([], Some r)
      end
  end.

(** generate_random_music_independent_duration (lines 152-163): a stream
    of pitches and a stream of durations, zipped; [zip] pulls the pitch
    first.  The two frames share the random source; each keeps the log of
    the messages it printed itself. *)
Definition independent_next (fuel : nat) (st : @Gen P * @Gen D)
  : pulled_note (@Gen P * @Gen D) :=
  let (pitches, durations) := st in
  match next fuel pitches with
  | Item p pitches' =>
      match next fuel (with_world
                         (with_rng (rng (world pitches')) (world durations))
                         durations) with
      | Item d durations' =>
          Note (p, d)
               (with_world
                  (with_rng (rng (world durations')) (world pitches'))
                  pitches',
                durations')
      | Error e _ => Failed (Core e)
      | Diverges => Hangs
      end
  | Error e _ => Failed (Core e)
  | Diverges => Hangs
  end.

Definition independent_duration (starting_notes : list (P * D))
  (length_of_history : nat) (mixup_period : option Z) (g : Rng)
  : @Gen P * @Gen D :=
  (generate_random_stream (map fst starting_notes) length_of_history
     mixup_period (mkWorld g []),
   generate_random_stream (map snd starting_notes) length_of_history
     mixup_period (mkWorld g [])).

Fixpoint independent_take (fuel n : nat) (st : @Gen P * @Gen D)
  : list (P * D) * option (pulled_note (@Gen P * @Gen D)) :=
  match n with
  | 0 => ([], None)
  | S n' =>
      match independent_next fuel st with
      | Note note st' =>
          let (notes, r) := independent_take fuel n' st' in
          (note :: notes, r)
      | r => ([], Some r)
      end
  end.

End Music.


(** * The caller: markov_rock_paper_scissors.py *)

Module RockPaperScissors.

Import String.

#[export] Instance str_eq_dec : Hashable string := string_dec.

(** [beats], lines 22-26: the move a move beats. *)
Definition beats : list (string * string) :=
  [("r"%string, "s"%string); ("s"%string, "p"%string);
   ("p"%string, "r"%string)].

(** [loses_to], line 28: [{v: k for (k, v) in beats.items()}]. *)
Definition loses_to : list (string * string) :=
  fold_left (fun d kv => dict_set d (snd kv) (fst kv)) beats [].

(** [x, = s]: unpacking a [str] gives its only character; a string of
    another length raises [ValueError]. *)
Definition unpack_one (x : string) : option string :=
  match x with
  | String c EmptyString => Some (String c EmptyString)
  | _ => None
  end.

Inductive verdict : Type := Win | Lose | Tie.

(** The variables of play_game. *)
Record Game : Type := mkGame {
  turn : nat;
  wins : nat;
  losses : nat;
  history : list string
}.

(** What a pass of the loop prints. *)
Record Report : Type := mkReport {
  said : verdict;
  computer_choice : string;
  user_choice : string;
  user_prediction : string
}.

(** Lines 41-44: the predicted move of the user. *)
Definition predict_user (history : list string) (w : @World string)
  : (string + failure) * @World string :=
  if 0 <? List.length history then
    match predict_from_history history
            (Nat.min (List.length history - 1) 3) w with
    | (Ret x, w1) =>
        match unpack_one x with
        | Some c => (inl c, w1)
        | None => (inr (Core ValueError), w1)
        end
    | (Raise e, w1) => (inr (Core e), w1)
    end
  else
    match random_choice (map fst beats) (rng w) with
    | (Ret x, g) => (inl x, with_rng g w)
    | (Raise e, g) => (inr (Core e), with_rng g w)
    end.

(** One pass of the loop of play_game, lines 40-58, without the wait for
    a key press of lines 38-39 and the printed win rate.  [player_play]
    is called after the prediction and may draw from the random
    source. *)
Definition play_game_pass (player_play : Rng -> string * Rng) (st : Game)
  (w : @World string) : (Game * Report + failure) * @World string :=
  match predict_user (history st) w with
  | (inr f, w1) => (inr f, w1)
  | (inl prediction, w1) =>
      match dict_get loses_to prediction with
      | None => (inr KeyError, w1)
      | Some computer =>
          let (choice, g) := player_play (rng w1) in
          let w2 := with_rng g w1 in
          let history' := (history st ++ [choice])%list in
          match dict_get beats computer with
          | None => (inr KeyError, w2)
          | Some beaten =>
              if string_dec beaten choice then
                (inl (mkGame (turn st + 1) (wins st + 1) (losses st)
                        history',
                      mkReport Win computer choice prediction), w2)
              else
                match dict_get loses_to computer with
                | None => (inr KeyError, w2)
                | Some beater =>
                    if string_dec beater choice then
                      (inl (mkGame (turn st + 1) (wins st)
                              (losses st + 1) history',
                            mkReport Lose computer choice prediction), w2)
                    else
                      (inl (mkGame (turn st + 1) (wins st) (losses st)
                              history',
                            mkReport Tie computer choice prediction), w2)
                end
          end
      end
  end.

(** A move of the game: a key of [beats]. *)
Definition legal (m : string) : Prop := In m (map fst beats).

End RockPaperScissors.

(** * Properties *)

Unset Implicit Arguments.

Section Builder.

Context {T : Type} {T_eq_dec : Hashable T}.

Lemma advance_skipn (n : nat) (it : list T) : advance n it = skipn n it.
Proof. destruct n; reflexivity. Qed.

Lemma parallels_skips (sq : list T) (n a : nat) :
  map (fun p => advance (fst p) (snd p)) (combine (seq a n) (tee sq n))
  = map (fun j => skipn j sq) (seq a n).
Proof.
  revert a; induction n as [|n IH]; intros a; simpl; [reflexivity|].
  rewrite advance_skipn. f_equal. apply IH.
Qed.

Lemma skipn_step (sq : list T) (p : nat) :
  p < length sq -> exists x, skipn p sq = x :: skipn (S p) sq.
Proof.
  revert p; induction sq as [|y sq IH]; intros p Hp; simpl in Hp; [lia|].
  destruct p as [|p]; [exists y; reflexivity|].
  apply IH. lia.
Qed.

Lemma skipn_all_nil (sq : list T) (p : nat) :
  length sq <= p -> skipn p sq = [].
Proof. intros Hp. apply skipn_all2. exact Hp. Qed.

(** One round of [zip] over the shifted copies. *)
Lemma next_all_skips (sq : list T) (n p : nat) :
  (p + n <= length sq ->
   next_all (map (fun j => skipn j sq) (seq p n))
   = Some (window_at sq n p, map (fun j => skipn j sq) (seq (S p) n)))
  /\ (length sq < p + n -> 0 < n ->
      next_all (map (fun j => skipn j sq) (seq p n)) = None).
Proof.
  revert p; induction n as [|n IH]; intros p.
  - split; [intros _|lia]. unfold window_at. reflexivity.
  - cbn [seq map next_all]. split.
    + intros Hle. destruct (skipn_step sq p) as [x Hx]; [lia|].
      rewrite Hx. destruct (IH (S p)) as [IH1 _].
      rewrite IH1 by lia. unfold window_at. rewrite Hx. reflexivity.
    + intros Hlt _. destruct (le_lt_dec (length sq) p) as [Hp|Hp].
      * rewrite skipn_all_nil by exact Hp. reflexivity.
      * destruct (skipn_step sq p) as [x Hx]; [exact Hp|].
        rewrite Hx. destruct (IH (S p)) as [_ IH2].
        rewrite IH2 by lia. reflexivity.
Qed.

Lemma zip_star_skips (sq : list T) (n fuel p : nat) :
  length sq - p < fuel ->
  zip_star fuel (map (fun j => skipn j sq) (seq p (S n)))
  = map (window_at sq (S n)) (seq p (length sq + 1 - S n - p)).
Proof.
  revert p; induction fuel as [|fuel IH]; intros p Hf; [lia|].
  destruct (next_all_skips sq (S n) p) as [H1 H2].
  destruct (le_lt_dec (p + S n) (length sq)) as [Hle|Hlt].
  - specialize (H1 Hle). cbn [seq map zip_star] in *. rewrite H1.
    replace (length sq + 1 - S n - p) with (S (length sq + 1 - S n - S p))
      by lia.
    cbn [seq map]. f_equal. apply (IH (S p)). lia.
  - specialize (H2 Hlt ltac:(lia)). cbn [seq map zip_star] in *. rewrite H2.
    replace (length sq + 1 - S n - p) with 0 by lia. reflexivity.
Qed.

(** [group_by_n] is the list of blocks by position. *)
Lemma group_by_n_windows (sq : list T) (n : nat) :
  group_by_n sq (S n) = windows sq (S n).
Proof.
  unfold group_by_n, windows. rewrite parallels_skips.
  rewrite zip_star_skips by lia. f_equal. f_equal. lia.
Qed.

(** *** Counters and tables *)

Lemma counter_get_set (count : Counter) (x y : T) (v : nat) :
  counter_get (counter_set count x v) y
  = if eq_dec x y then v else counter_get count y.
Proof.
  induction count as [|[z c] count IH]; simpl.
  - destruct (eq_dec x y); reflexivity.
  - destruct (eq_dec z x) as [->|Hzx]; simpl.
    + destruct (eq_dec x y); reflexivity.
    + destruct (eq_dec z y) as [->|Hzy].
      * destruct (eq_dec x y); [congruence|reflexivity].
      * exact IH.
Qed.

Lemma total_counter_incr (count : Counter) (x : T) :
  total (counter_incr count x) = total count + 1.
Proof.
  unfold counter_incr, total.
  induction count as [|[z c] count IH]; simpl; [reflexivity|].
  destruct (eq_dec z x); simpl; [lia|]. rewrite IH. lia.
Qed.

Lemma table_find_set (t : Table) (k k' : list T) (v : Counter) :
  table_find (table_set t k v) k'
  = if tuple_eq_dec k k' then Some v else table_find t k'.
Proof.
  induction t as [|[k0 c] t IH]; simpl.
  - destruct (tuple_eq_dec k k'); reflexivity.
  - destruct (tuple_eq_dec k0 k) as [->|Hk]; simpl.
    + destruct (tuple_eq_dec k k'); reflexivity.
    + destruct (tuple_eq_dec k0 k') as [->|Hk'].
      * destruct (tuple_eq_dec k k'); [congruence|reflexivity].
      * exact IH.
Qed.

Lemma table_find_app_new (t : Table) (k k' : list T) :
  table_find (t ++ [(k, [])]) k'
  = match table_find t k' with
    | Some c => Some c
    | None => if tuple_eq_dec k k' then Some [] else None
    end.
Proof.
  induction t as [|[k0 c] t IH]; simpl; [reflexivity|].
  destruct (tuple_eq_dec k0 k'); [reflexivity|exact IH].
Qed.

Lemma successors_record (t : Table) (pre c : list T) (x : T) :
  successors (record t pre x) c
  = if tuple_eq_dec pre c then counter_incr (successors t pre) x
    else successors t c.
Proof.
  unfold successors, record, table_getitem.
  destruct (table_find t pre) as [count|] eqn:Hf.
  - rewrite table_find_set. destruct (tuple_eq_dec pre c); reflexivity.
  - rewrite table_find_set. destruct (tuple_eq_dec pre c); [reflexivity|].
    rewrite table_find_app_new.
    destruct (table_find t c); [reflexivity|].
    destruct (tuple_eq_dec pre c); [contradiction|reflexivity].
Qed.

Lemma table_keys_set (t : Table) (k : list T) (v : Counter) (c : list T) :
  In c (table_keys (table_set t k v)) <-> In c (table_keys t) \/ c = k.
Proof.
  unfold table_keys.
  induction t as [|[k0 c0] t IH]; simpl.
  - intuition.
  - destruct (tuple_eq_dec k0 k) as [->|Hk]; simpl.
    + intuition.
    + rewrite IH. intuition.
Qed.

Lemma table_keys_record (t : Table) (pre c : list T) (x : T) :
  In c (table_keys (record t pre x)) <-> In c (table_keys t) \/ c = pre.
Proof.
  unfold record, table_getitem.
  destruct (table_find t pre); rewrite table_keys_set; [reflexivity|].
  unfold table_keys. rewrite map_app, in_app_iff. simpl. intuition.
Qed.

(** *** Unpacking a tuple *)

Lemma unpack_snoc (pre : list T) (x : T) : unpack (pre ++ [x]) = Some (pre, x).
Proof.
  induction pre as [|y pre IH]; [reflexivity|].
  cbn [app unpack]. rewrite IH.
  destruct pre; reflexivity.
Qed.

Lemma unpack_inv (tup : list T) :
  match unpack tup with
  | Some (pre, x) => tup = pre ++ [x]
  | None => tup = []
  end.
Proof.
  induction tup as [|y tup IH]; [reflexivity|].
  cbn [unpack]. destruct tup as [|z tup]; [reflexivity|].
  destruct (unpack (z :: tup)) as [[pre x]|].
  - rewrite IH. reflexivity.
  - discriminate.
Qed.

Lemma tuple_eqb_true (x y : list T) : tuple_eqb x y = true <-> x = y.
Proof.
  unfold tuple_eqb. destruct (tuple_eq_dec x y); intuition discriminate.
Qed.

Lemma tuple_eqb_refl (x : list T) : tuple_eqb x x = true.
Proof. apply tuple_eqb_true. reflexivity. Qed.

Lemma tuple_eqb_neq (x y : list T) : x <> y -> tuple_eqb x y = false.
Proof. unfold tuple_eqb. destruct (tuple_eq_dec x y); intuition. Qed.

(** *** What one recorded tuple adds *)

Lemma count_record_tuple (t : Table) (tup c : list T) (x : T) :
  counter_get (successors (record_tuple t tup) c) x
  = counter_get (successors t c) x + hit (tuple_eqb tup (c ++ [x])).
Proof.
  unfold record_tuple. pose proof (unpack_inv tup) as Hu.
  destruct (unpack tup) as [[pre nx]|]; subst tup.
  - rewrite successors_record.
    destruct (tuple_eq_dec pre c) as [->|Hpc].
    + unfold counter_incr. rewrite counter_get_set.
      destruct (eq_dec nx x) as [->|Hx].
      * rewrite tuple_eqb_refl. reflexivity.
      * rewrite tuple_eqb_neq; [simpl; lia|].
        intros H. apply app_inj_tail in H. intuition.
    + rewrite tuple_eqb_neq; [simpl; lia|].
      intros H. apply app_inj_tail in H. intuition.
  - rewrite tuple_eqb_neq; [simpl; lia|].
    destruct c; discriminate.
Qed.

Lemma total_record_tuple (t : Table) (tup c : list T) :
  total (successors (record_tuple t tup) c)
  = total (successors t c) + prefix_hit c tup.
Proof.
  unfold record_tuple, prefix_hit.
  destruct (unpack tup) as [[pre nx]|]; [|lia].
  rewrite successors_record.
  destruct (tuple_eq_dec pre c) as [->|Hpc].
  - rewrite tuple_eqb_refl. apply total_counter_incr.
  - rewrite tuple_eqb_neq by exact Hpc. simpl. lia.
Qed.

Lemma fold_left_additive {X Y : Type} (f : X -> Y -> X) (m : X -> nat)
  (w : Y -> nat) :
  (forall a b, m (f a b) = m a + w b) ->
  forall l a, m (fold_left f l a) = m a + list_sum (map w l).
Proof.
  intros Hstep l; induction l as [|b l IH]; intros a; simpl; [lia|].
  rewrite IH, Hstep. lia.
Qed.

Lemma list_sum_hits {X : Type} (b : X -> bool) (l : list X) :
  list_sum (map (fun a => hit (b a)) l) = length (filter b l).
Proof.
  induction l as [|a l IH]; simpl; [reflexivity|].
  rewrite IH. destruct (b a); reflexivity.
Qed.

Lemma firstn_succ_snoc (l : list T) (k : nat) :
  k < length l -> exists x, firstn (S k) l = firstn k l ++ [x].
Proof.
  revert k; induction l as [|y l IH]; intros k Hk; simpl in Hk; [lia|].
  destruct k as [|k]; [exists y; reflexivity|].
  destruct (IH k) as [x Hx]; [lia|].
  exists x. cbn [firstn app] in *. rewrite Hx. reflexivity.
Qed.

Lemma window_succ (sq : list T) (k p : nat) :
  p < length sq - k ->
  exists x, window_at sq (S k) p = window_at sq k p ++ [x].
Proof.
  intros Hp. unfold window_at. apply firstn_succ_snoc.
  rewrite length_skipn. lia.
Qed.

Lemma window_length (sq : list T) (k p : nat) :
  p <= length sq - k -> k <= length sq -> length (window_at sq k p) = k.
Proof.
  intros Hp Hk. unfold window_at.
  rewrite length_firstn, length_skipn. lia.
Qed.

(** *** The table of a sequence *)

Lemma calculate_frequencies_windows (history : list T) (k : nat) :
  calculate_frequencies history k
  = fold_left record_tuple (windows history (S k)) [].
Proof.
  unfold calculate_frequencies. rewrite Nat.add_1_r.
  rewrite group_by_n_windows. reflexivity.
Qed.

Lemma windows_succ_positions (history : list T) (k : nat) :
  windows history (S k)
  = map (window_at history (S k)) (seq 0 (length history - k)).
Proof. unfold windows. f_equal. f_equal. lia. Qed.

Lemma count_calculate_frequencies (history : list T) (k : nat) (c : list T)
  (s : T) :
  counter_get (successors (calculate_frequencies history k) c) s
  = length (followed_positions history k c s).
Proof.
  rewrite calculate_frequencies_windows.
  rewrite (fold_left_additive record_tuple
             (fun t => counter_get (successors t c) s)
             (fun tup => hit (tuple_eqb tup (c ++ [s]))))
    by (intros; apply count_record_tuple).
  simpl. rewrite windows_succ_positions, map_map, list_sum_hits.
  unfold followed_positions. rewrite Nat.add_1_r. reflexivity.
Qed.

Lemma total_calculate_frequencies (history : list T) (k : nat) (c : list T) :
  total (successors (calculate_frequencies history k) c)
  = length (context_positions history k c).
Proof.
  rewrite calculate_frequencies_windows.
  rewrite (fold_left_additive record_tuple
             (fun t => total (successors t c)) (prefix_hit c))
    by (intros; apply total_record_tuple).
  simpl. rewrite windows_succ_positions, map_map.
  unfold context_positions. rewrite <- list_sum_hits.
  f_equal. apply map_ext_in. intros p Hp. apply in_seq in Hp.
  destruct (window_succ history k p) as [x Hx]; [lia|].
  unfold prefix_hit. rewrite Hx, unpack_snoc. reflexivity.
Qed.

Lemma keys_fold_record_tuple (l : list (list T)) (t : Table) (c : list T) :
  In c (table_keys (fold_left record_tuple l t)) ->
  In c (table_keys t) \/ exists x, In (c ++ [x]) l.
Proof.
  revert t; induction l as [|tup l IH]; intros t Hin; simpl in *; [auto|].
  destruct (IH _ Hin) as [Hk|[x Hx]]; [|right; exists x; auto].
  unfold record_tuple in Hk. pose proof (unpack_inv tup) as Hu.
  destruct (unpack tup) as [[pre nx]|]; [|auto].
  apply table_keys_record in Hk. destruct Hk as [Hk | ->]; [auto|].
  right. exists nx. left. exact Hu.
Qed.

Lemma keys_calculate_frequencies (history : list T) (k : nat) (c : list T) :
  In c (table_keys (calculate_frequencies history k)) -> length c = k.
Proof.
  rewrite calculate_frequencies_windows, windows_succ_positions.
  intros Hin. apply keys_fold_record_tuple in Hin.
  destruct Hin as [Hf|[x Hx]]; [destruct Hf|].
  apply in_map_iff in Hx. destruct Hx as [p [Hp Hseq]].
  apply in_seq in Hseq.
  assert (Hlen : length (window_at history (S k) p) = S k)
    by (apply window_length; lia).
  rewrite Hp, length_app in Hlen. simpl in Hlen. lia.
Qed.

(** C1. Count conservation: in the table built from a sequence with order
    [k], every context key is a [k]-tuple, the counts of its successor map
    sum to the number of positions where it stands followed by one more
    item, and each count is the number of blocks of [k+1] items made of
    the key followed by that successor. *)
Theorem C1_count_conservation (history : list T) (k : nat) (c : list T) :
  In c (table_keys (calculate_frequencies history k)) ->
  length c = k
  /\ total (successors (calculate_frequencies history k) c)
     = length (context_positions history k c)
  /\ forall s,
       counter_get (successors (calculate_frequencies history k) c) s
       = length (followed_positions history k c s).
Proof.
  intros Hin. split; [exact (keys_calculate_frequencies _ _ _ Hin)|].
  split; [apply total_calculate_frequencies|].
  intros s. apply count_calculate_frequencies.
Qed.

(** C8. A sequence with fewer than [k+1] items gives a table with no
    context at all (the builder is a total function: it returns). *)
Theorem C8_short_sequence_empty_table (history : list T) (k : nat) :
  length history < k + 1 ->
  calculate_frequencies history k = []
  /\ table_keys (calculate_frequencies history k) = [].
Proof.
  intros Hlen. rewrite calculate_frequencies_windows, windows_succ_positions.
  replace (length history - k) with 0 by lia. split; reflexivity.
Qed.

End Builder.

Example build_scenario :
  calculate_frequencies [A; B; A; B; A; C] 1 = [([A], [(B, 2); (C, 1)]); ([B], [(A, 2)])].
Proof. reflexivity. Qed.

Example group_by_n_doc : group_by_n [A; B; C] 2 = [[A; B]; [B; C]].
Proof. reflexivity. Qed.


Section Predictor.

Context {T : Type} {T_eq_dec : Hashable T}.

(** *** [max] returns the first item of maximal key *)

Lemma max_from_split (key : T -> nat) (xs : list T) (best : T) :
  exists l1 l2,
    best :: xs = l1 ++ max_from key best xs :: l2
    /\ (forall y, In y l1 -> key y < key (max_from key best xs))
    /\ (forall y, In y l2 -> key y <= key (max_from key best xs))
    /\ key best <= key (max_from key best xs).
Proof.
  revert best; induction xs as [|x xs IH]; intros best; cbn [max_from].
  - exists [], []. split; [reflexivity|].
    split; [intros y []|]. split; [intros y []|]. lia.
  - destruct (key best <? key x) eqn:Hlt.
    + apply Nat.ltb_lt in Hlt.
      destruct (IH x) as (l1 & l2 & Heq & H1 & H2 & H3).
      exists (best :: l1), l2. cbn [app]. rewrite <- Heq.
      split; [reflexivity|]. split; [|split; [exact H2|lia]].
      intros y [<-|Hy]; [lia|auto].
    + apply Nat.ltb_ge in Hlt.
      destruct (IH best) as (l1 & l2 & Heq & H1 & H2 & H3).
      destruct l1 as [|b l1]; cbn [app] in Heq.
      * injection Heq as Hb Hxs. exists [], (x :: l2). cbn [app].
        split; [rewrite <- Hb at 1; rewrite Hxs; reflexivity|].
        split; [intros y []|]. split; [|exact H3].
        intros y [<-|Hy]; [rewrite <- Hb; lia|auto].
      * injection Heq as Hb Hxs. subst b.
        exists (best :: x :: l1), l2. cbn [app].
        split; [do 2 f_equal; exact Hxs|].
        split; [|split; [exact H2|exact H3]].
        assert (Hbest : key best < key (max_from key best xs))
          by (apply H1; left; reflexivity).
        intros y [<-|[<-|Hy]]; [exact Hbest|lia|].
        apply H1. right. exact Hy.
Qed.

Lemma max_from_in (key : T -> nat) (xs : list T) (best : T) :
  In (max_from key best xs) (best :: xs).
Proof.
  destruct (max_from_split key xs best) as (l1 & l2 & Heq & _).
  rewrite Heq. apply in_elt.
Qed.

Lemma max_from_max (key : T -> nat) (xs : list T) (best y : T) :
  In y (best :: xs) -> key y <= key (max_from key best xs).
Proof.
  destruct (max_from_split key xs best) as (l1 & l2 & Heq & H1 & H2 & _).
  rewrite Heq. intros Hin. apply in_app_or in Hin.
  destruct Hin as [Hin|[<-|Hin]]; [apply Nat.lt_le_incl; auto|lia|auto].
Qed.

(** *** Keys of a counter *)

Lemma counter_keys_set (count : Counter) (x : T) (v : nat) :
  counter_keys (counter_set count x v)
  = if in_dec eq_dec x (counter_keys count) then counter_keys count
    else counter_keys count ++ [x].
Proof.
  unfold counter_keys.
  induction count as [|[z c] count IH]; cbn [counter_set map fst].
  - destruct (in_dec eq_dec x []) as [[]|]; reflexivity.
  - destruct (eq_dec z x) as [->|Hzx]; cbn [map fst].
    + destruct (in_dec eq_dec x (x :: map fst count)) as [|Hn];
        [reflexivity|]. exfalso. apply Hn. left. reflexivity.
    + rewrite IH.
      destruct (in_dec eq_dec x (map fst count)) as [Hi|Hi];
        destruct (in_dec eq_dec x (z :: map fst count)) as [Hj|Hj];
        try reflexivity.
      * exfalso. apply Hj. right. exact Hi.
      * exfalso. destruct Hj as [Hj|Hj]; [congruence|auto].
Qed.

Lemma counter_get_in (count : Counter) (x : T) :
  counter_get count x <> 0 -> In x (counter_keys count).
Proof.
  unfold counter_keys.
  induction count as [|[z c] count IH]; simpl; [congruence|].
  destruct (eq_dec z x); auto.
Qed.

Lemma successors_find (t : Table) (c : list T) :
  successors t c <> [] -> table_find t c = Some (successors t c).
Proof.
  unfold successors. destruct (table_find t c); congruence.
Qed.

(** With recorded successors the lookup inserts nothing, nothing is drawn
    and [max] decides. *)
Lemma predict_max (t : Table) (c : list T) (w : World) (x : T)
  (rest : list T) :
  counter_keys (successors t c) = x :: rest ->
  predict t c w = (Ret (max_from (counter_get (successors t c)) x rest), t, w).
Proof.
  intros HK. unfold predict, table_getitem.
  rewrite (successors_find t c) by (intros E; rewrite E in HK; discriminate).
  rewrite HK. reflexivity.
Qed.

Lemma counter_keys_nil (count : @Counter T) :
  counter_keys count = [] -> count = [].
Proof. destruct count; [reflexivity|discriminate]. Qed.

(** *** Insertion order of a successor map *)

Lemma keys_record_tuple (t : Table) (tup c : list T) :
  counter_keys (successors (record_tuple t tup) c)
  = match unpack tup with
    | Some (pre, x) =>
        if tuple_eq_dec pre c then
          if in_dec eq_dec x (counter_keys (successors t c))
          then counter_keys (successors t c)
          else counter_keys (successors t c) ++ [x]
        else counter_keys (successors t c)
    | None => counter_keys (successors t c)
    end.
Proof.
  unfold record_tuple. destruct (unpack tup) as [[pre x]|]; [|reflexivity].
  rewrite successors_record.
  destruct (tuple_eq_dec pre c) as [->|]; [|reflexivity].
  unfold counter_incr. apply counter_keys_set.
Qed.

Lemma keys_record_tuple_in (t : Table) (tup c : list T) (x : T) :
  In x (counter_keys (successors (record_tuple t tup) c))
  <-> In x (counter_keys (successors t c)) \/ tup = c ++ [x].
Proof.
  rewrite keys_record_tuple. pose proof (unpack_inv tup) as Hu.
  destruct (unpack tup) as [[pre y]|]; subst tup.
  - destruct (tuple_eq_dec pre c) as [->|Hpc].
    + destruct (in_dec eq_dec y (counter_keys (successors t c))) as [Hi|Hi].
      * split; [auto|]. intros [H|H]; [exact H|].
        apply app_inj_tail in H. destruct H as [_ <-]. exact Hi.
      * rewrite in_app_iff. simpl. split.
        -- intros [H|[<-|[]]]; auto.
        -- intros [H|H]; [auto|]. apply app_inj_tail in H.
           destruct H as [_ <-]. auto.
    + split; [auto|]. intros [H|H]; [exact H|].
      apply app_inj_tail in H. destruct H as [H _]. contradiction.
  - split; [auto|]. intros [H|H]; [exact H|]. destruct c; discriminate.
Qed.

Lemma keys_fold_in (W : list (list T)) (t : Table) (c : list T) (x : T) :
  In x (counter_keys (successors (fold_left record_tuple W t) c))
  <-> In x (counter_keys (successors t c)) \/ In (c ++ [x]) W.
Proof.
  revert t; induction W as [|tup W IH]; intros t; cbn [fold_left].
  - simpl. intuition.
  - rewrite IH, keys_record_tuple_in. simpl. intuition.
Qed.

Lemma snoc_split {X : Type} (K1 K2 K : list X) (s x : X) :
  K1 ++ s :: K2 = K ++ [x] ->
  (K2 = [] /\ K1 = K /\ s = x)
  \/ exists K2', K2 = K2' ++ [x] /\ K = K1 ++ s :: K2'.
Proof.
  intros Heq. destruct K2 as [|y K2].
  - left. apply app_inj_tail in Heq. intuition.
  - right. destruct (@exists_last _ (y :: K2)) as (K2' & z & Hz);
      [discriminate|].
    rewrite Hz in *. exists K2'.
    change (K1 ++ s :: K2' ++ [z]) with (K1 ++ (s :: K2') ++ [z]) in Heq.
    rewrite app_assoc in Heq. apply app_inj_tail in Heq.
    destruct Heq as [<- <-]. split; reflexivity.
Qed.

(** A successor that stands later in the successor map was first recorded
    after an earlier one had been. *)
Lemma keys_fold_order (W : list (list T)) (c K1 K2 : list T) (s t : T) :
  counter_keys (successors (fold_left record_tuple W []) c) = K1 ++ s :: K2 ->
  In t K2 ->
  exists W1 W2, W = W1 ++ (c ++ [s]) :: W2 /\ ~ In (c ++ [t]) W1.
Proof.
  revert K1 K2; induction W as [|w W IH] using rev_ind; intros K1 K2 HK Ht.
  - simpl in HK. destruct K1; discriminate.
  - rewrite fold_left_app in HK. cbn [fold_left] in HK.
    rewrite keys_record_tuple in HK.
    assert (Hold : forall K1 K2,
               counter_keys (successors (fold_left record_tuple W []) c)
               = K1 ++ s :: K2 -> In t K2 ->
               exists W1 W2,
                 W ++ [w] = W1 ++ (c ++ [s]) :: W2 /\ ~ In (c ++ [t]) W1).
    { intros K1' K2' HK' Ht'.
      destruct (IH K1' K2' HK' Ht') as (W1 & W2 & -> & Hn).
      exists W1, (W2 ++ [w]). rewrite <- app_assoc. split; [reflexivity|auto]. }
    pose proof (unpack_inv w) as Hu.
    destruct (unpack w) as [[pre x]|]; [|eauto].
    destruct (tuple_eq_dec pre c) as [->|]; [|eauto].
    destruct (in_dec eq_dec x
                (counter_keys (successors (fold_left record_tuple W []) c)))
      as [Hi|Hi]; [eauto|].
    symmetry in HK. apply snoc_split in HK.
    destruct HK as [(-> & _ & _)|(K2' & -> & HK)]; [destruct Ht|].
    apply in_app_or in Ht. destruct Ht as [Ht|[<-|[]]]; [eauto|].
    assert (Hs : In s (counter_keys
                         (successors (fold_left record_tuple W []) c)))
      by (rewrite HK; apply in_elt).
    apply keys_fold_in in Hs. destruct Hs as [[]|Hs].
    apply in_split in Hs. destruct Hs as (W1 & W2 & ->).
    exists W1, (W2 ++ [w]). rewrite <- app_assoc. split; [reflexivity|].
    intros Hin. apply Hi. apply keys_fold_in. right.
    apply in_or_app. left. exact Hin.
Qed.

(** *** Positions *)

Lemma seq_split_lt (m a p : nat) (l1 l2 : list nat) :
  seq a m = l1 ++ p :: l2 -> forall q, In q l2 -> p < q.
Proof.
  revert a m; induction l1 as [|y l1 IH]; intros a m Heq q Hq;
    destruct m as [|m]; try discriminate; cbn [seq app] in Heq;
    injection Heq as Ha Hrest.
  - subst. apply in_seq in Hq. lia.
  - eapply IH; eauto.
Qed.

Lemma hd_filter_seq_le (f : nat -> bool) (m a p : nat) :
  hd_error (filter f (seq a m)) = Some p ->
  forall q, In q (filter f (seq a m)) -> p <= q.
Proof.
  revert a; induction m as [|m IH]; intros a Hhd q Hq; [destruct Hq|].
  cbn [seq filter] in *. destruct (f a).
  - injection Hhd as <-. destruct Hq as [<-|Hq]; [lia|].
    apply filter_In in Hq. destruct Hq as [Hq _]. apply in_seq in Hq. lia.
  - eapply IH; eauto.
Qed.

Lemma followed_positions_in (history : list T) (k : nat) (c : list T)
  (s : T) (p : nat) :
  In p (followed_positions history k c s)
  <-> p < length history - k /\ window_at history (S k) p = c ++ [s].
Proof.
  unfold followed_positions. rewrite filter_In, in_seq, tuple_eqb_true.
  rewrite Nat.add_1_r. intuition lia.
Qed.

(** C10. Tie-break: on a table built from a sequence, [predict] with a
    context that has recorded successors returns, whatever the random
    source, a successor of maximal count; any other successor with the
    same count stands later in the successor map (was inserted later)
    and was first recorded for that context at a later position than the
    first record of the returned one. *)
Theorem C10_tie_break_first_recorded (history : list T) (k : nat)
  (ctx : list T) :
  successors (calculate_frequencies history k) ctx <> [] ->
  exists s,
    (forall w, predict (calculate_frequencies history k) ctx w
               = (Ret s, calculate_frequencies history k, w))
    /\ (forall t,
          counter_get (successors (calculate_frequencies history k) ctx) t
          <= counter_get (successors (calculate_frequencies history k) ctx) s)
    /\ (exists l1 l2,
          counter_keys (successors (calculate_frequencies history k) ctx)
          = l1 ++ s :: l2
          /\ forall y,
               In y l1 ->
               counter_get (successors (calculate_frequencies history k) ctx) y
               < counter_get (successors (calculate_frequencies history k) ctx)
                             s)
    /\ (forall t,
          t <> s ->
          counter_get (successors (calculate_frequencies history k) ctx) t
          = counter_get (successors (calculate_frequencies history k) ctx) s ->
          exists ps,
            hd_error (followed_positions history k ctx s) = Some ps
            /\ forall pt,
                 In pt (followed_positions history k ctx t) -> ps < pt).
Proof.
  intros Hne.
  set (table := calculate_frequencies history k) in *.
  set (count := successors table ctx) in *.
  destruct (counter_keys count) as [|x rest] eqn:HK;
    [apply counter_keys_nil in HK; contradiction|].
  set (s := max_from (counter_get count) x rest).
  assert (Hmax : forall t, counter_get count t <= counter_get count s).
  { intros t. destruct (Nat.eq_dec (counter_get count t) 0) as [->|Hz];
      [lia|].
    apply counter_get_in in Hz. rewrite HK in Hz.
    apply max_from_max. exact Hz. }
  destruct (max_from_split (counter_get count) rest x)
    as (l1 & l2 & Hsplit & Hl1 & _ & _).
  fold s in Hsplit, Hl1.
  exists s. split; [intros w; apply predict_max; exact HK|].
  split; [exact Hmax|].
  split; [exists l1, l2; split; [exact Hsplit|exact Hl1]|].
  intros t Hts Htie.
  assert (Hkeys : counter_keys
                    (successors (fold_left record_tuple
                                   (windows history (S k)) []) ctx)
                  = l1 ++ s :: l2).
  { rewrite <- calculate_frequencies_windows. fold table. fold count.
    rewrite HK. exact Hsplit. }
  assert (Hsin : In (ctx ++ [s]) (windows history (S k))).
  { assert (H : In s (counter_keys
                        (successors (fold_left record_tuple
                                       (windows history (S k)) []) ctx)))
      by (rewrite Hkeys; apply in_elt).
    apply keys_fold_in in H. destruct H as [[]|H]. exact H. }
  assert (Hpos : counter_get count s <> 0).
  { unfold count, table. rewrite count_calculate_frequencies.
    rewrite windows_succ_positions in Hsin. apply in_map_iff in Hsin.
    destruct Hsin as (p & Hp & Hseq). apply in_seq in Hseq.
    assert (Hin : In p (followed_positions history k ctx s))
      by (apply followed_positions_in; split; [lia|exact Hp]).
    destruct (followed_positions history k ctx s); [destruct Hin|].
    simpl. lia. }
  assert (Htl2 : In t l2).
  { assert (Ht : In t (counter_keys count))
      by (apply counter_get_in; lia).
    rewrite HK, Hsplit in Ht. apply in_app_or in Ht.
    destruct Ht as [Ht|[Ht|Ht]]; [|congruence|exact Ht].
    apply Hl1 in Ht. lia. }
  destruct (keys_fold_order _ _ _ _ _ _ Hkeys Htl2) as (W1 & W2 & HW & Hn).
  rewrite windows_succ_positions in HW.
  apply map_eq_app in HW. destruct HW as (P1 & P2 & Hseq & HW1 & HW2).
  destruct P2 as [|p P2]; [discriminate|]. cbn [map] in HW2.
  injection HW2 as Hp _.
  assert (Hpin : In p (followed_positions history k ctx s)).
  { apply followed_positions_in. split; [|exact Hp].
    assert (H : In p (seq 0 (length history - k)))
      by (rewrite Hseq; apply in_elt).
    apply in_seq in H. lia. }
  destruct (hd_error (followed_positions history k ctx s)) as [p0|] eqn:Hhd.
  2:{ destruct (followed_positions history k ctx s);
        [destruct Hpin|discriminate]. }
  exists p0. split; [reflexivity|]. intros pt Hpt.
  assert (Hle : p0 <= p)
    by (exact (hd_filter_seq_le _ _ _ _ Hhd p Hpin)).
  apply followed_positions_in in Hpt. destruct Hpt as [Hlt Hwin].
  assert (Hptin : In pt (seq 0 (length history - k)))
    by (apply in_seq; lia).
  rewrite Hseq in Hptin. apply in_app_or in Hptin.
  destruct Hptin as [Hin|[Heq|Hin]].
  - exfalso. apply Hn. rewrite <- HW1, <- Hwin. apply in_map. exact Hin.
  - exfalso. subst pt. rewrite Hp in Hwin. apply app_inj_tail in Hwin.
    destruct Hwin as [_ E]. congruence.
  - pose proof (seq_split_lt _ _ _ _ _ Hseq pt Hin). lia.
Qed.

(** *** The fallback of [predict] *)

Lemma randbelow_lt (n : nat) (g : Rng) : n <> 0 -> fst (randbelow n g) < n.
Proof.
  intros Hn. destruct g as [|d g]; simpl; [lia|].
  apply Nat.mod_upper_bound. exact Hn.
Qed.

Lemma random_choice_nth {X : Type} (sq : list X) (g : Rng) :
  sq <> [] ->
  exists x,
    random_choice sq g = (Ret x, snd (randbelow (length sq) g))
    /\ nth_error sq (fst (randbelow (length sq) g)) = Some x.
Proof.
  intros Hne. destruct sq as [|x0 sq]; [congruence|].
  unfold random_choice.
  pose proof (randbelow_lt (length (x0 :: sq)) g) as Hlt.
  destruct (randbelow (length (x0 :: sq)) g) as [idx g'].
  exists (nth idx (x0 :: sq) x0). split; [reflexivity|].
  apply nth_error_nth'. apply Hlt. discriminate.
Qed.

Lemma predict_fallback (t : Table) (c : list T) (w : World) :
  successors t c = [] ->
  predict t c w
  = (fst (random_choice c (rng w)), snd (table_getitem t c),
     with_rng (snd (random_choice c (rng w))) (print Err w)).
Proof.
  intros Hs. unfold predict, table_getitem. unfold successors in Hs.
  destruct (table_find t c) as [count|]; [subst count|]; simpl;
    destruct (random_choice c (rng w)); reflexivity.
Qed.

Lemma slice_last_last_k (history : list T) (k : nat) :
  k <> 0 -> slice_last history k = last_k history k.
Proof. destruct k; [congruence|reflexivity]. Qed.

Lemma last_k_nonempty (history : list T) (k : nat) :
  history <> [] -> k <> 0 -> last_k history k <> [].
Proof.
  intros Hh Hk E. apply (f_equal (@length T)) in E.
  unfold last_k in E. rewrite length_skipn in E. cbn [length] in E.
  destruct history; [congruence|]. cbn [length] in E. lia.
Qed.

(** With order 0 the empty context has every item of a non-empty
    sequence as a recorded successor. *)
Lemma order_zero_successors (history : list T) :
  history <> [] -> successors (calculate_frequencies history 0) [] <> [].
Proof.
  intros Hh E.
  pose proof (total_calculate_frequencies history 0 []) as Ht.
  rewrite E in Ht. unfold context_positions in Ht.
  rewrite filter_ext with (g := fun _ => true) in Ht
    by (intros p; apply tuple_eqb_true; reflexivity).
  assert (Hall : forall l : list nat, filter (fun _ => true) l = l)
    by (induction l; simpl; congruence).
  rewrite Hall, length_seq, Nat.sub_0_r in Ht. unfold total in Ht.
  destruct history; [congruence|]. discriminate Ht.
Qed.

(** For an order of at least 1 and a context with recorded successors,
    [predict_from_history] returns a recorded successor of maximal count,
    whatever the random source. *)
Lemma predict_from_history_argmax (history : list T) (k : nat) :
  k <> 0 ->
  successors (calculate_frequencies history k) (last_k history k) <> [] ->
  exists s,
    (forall w, predict_from_history history k w = (Ret s, w))
    /\ In s (counter_keys
               (successors (calculate_frequencies history k)
                           (last_k history k)))
    /\ forall t,
         counter_get (successors (calculate_frequencies history k)
                                 (last_k history k)) t
         <= counter_get (successors (calculate_frequencies history k)
                                    (last_k history k)) s.
Proof.
  intros Hk Hne.
  set (count := successors (calculate_frequencies history k)
                           (last_k history k)) in *.
  destruct (counter_keys count) as [|x rest] eqn:HK;
    [apply counter_keys_nil in HK; contradiction|].
  exists (max_from (counter_get count) x rest). split; [|split].
  - intros w. unfold predict_from_history.
    rewrite slice_last_last_k by exact Hk.
    rewrite (predict_max _ _ w x rest HK). reflexivity.
  - apply max_from_in.
  - intros t. destruct (Nat.eq_dec (counter_get count t) 0) as [->|Hz];
      [lia|].
    apply counter_get_in in Hz. rewrite HK in Hz.
    apply max_from_max. exact Hz.
Qed.

(** C7 (amended). For a non-empty history whose last [k] items have no
    recorded successor in the table built from it, [predict_from_history]
    raises nothing: it prints its message and returns the item of the
    last [k] items that stands at the index drawn by [random.choice]. *)
Theorem C7_fallback_returns_recent_item (history : list T) (k : nat)
  (w : World) :
  history <> [] ->
  successors (calculate_frequencies history k) (last_k history k) = [] ->
  exists x,
    predict_from_history history k w
    = (Ret x,
       with_rng (snd (randbelow (length (last_k history k)) (rng w)))
                (print Err w))
    /\ nth_error (last_k history k)
                 (fst (randbelow (length (last_k history k)) (rng w)))
       = Some x
    /\ In x (last_k history k).
Proof.
  intros Hh Hs.
  assert (Hk : k <> 0).
  { intros ->. apply (order_zero_successors history Hh).
    unfold last_k in Hs. rewrite Nat.sub_0_r, skipn_all in Hs. exact Hs. }
  destruct (random_choice_nth (last_k history k) (rng w))
    as (x & Hx & Hnth); [apply last_k_nonempty; assumption|].
  exists x. split; [|split; [exact Hnth|eapply nth_error_In; exact Hnth]].
  unfold predict_from_history. rewrite slice_last_last_k by exact Hk.
  rewrite predict_fallback by exact Hs. rewrite Hx. reflexivity.
Qed.

End Predictor.

Section Generator.

Context {T : Type} {T_eq_dec : Hashable T}.

(** *** Lookups and the table *)

Lemma stable_refl (t : @Table T) : stable t t.
Proof. split; auto. Qed.

Lemma stable_trans (t1 t2 t3 : @Table T) :
  stable t1 t2 -> stable t2 t3 -> stable t1 t3.
Proof.
  intros [H1 K1] [H2 K2]. split.
  - intros c. rewrite H2. apply H1.
  - auto.
Qed.

Lemma table_getitem_stable (t : @Table T) (c : list T) :
  stable t (snd (table_getitem t c)).
Proof.
  unfold table_getitem.
  destruct (table_find t c) as [count|] eqn:Hf; [apply stable_refl|].
  split; cbn [snd].
  - intros c'. unfold successors. rewrite table_find_app_new.
    destruct (table_find t c') eqn:Hf'; [reflexivity|].
    destruct (tuple_eq_dec c c'); reflexivity.
  - intros c' Hin. unfold table_keys. rewrite map_app.
    apply in_or_app. left. exact Hin.
Qed.

Lemma predict_table (t : @Table T) (c : list T) (w : @World T) :
  snd (fst (predict t c w)) = snd (table_getitem t c).
Proof.
  unfold predict. destruct (table_getitem t c) as [count t'].
  destruct (py_max (counter_get count) (counter_keys count)) as [x|e];
    [reflexivity|].
  destruct e; try reflexivity.
  destruct (random_choice c (rng (print Err w))); reflexivity.
Qed.

Lemma seed_frequencies (l : @loop T) (s : @Gen T) :
  frequencies (state_of (seed l s)) = frequencies s.
Proof.
  unfold seed.
  destruct (random_choice (known_subsequences s) (rng (world s)))
    as [[c|e] g]; reflexivity.
Qed.

Lemma try_choices_frequencies (options : list T) (weights : list nat)
  (s : @Gen T) :
  frequencies (state_of (try_choices options weights s)) = frequencies s.
Proof.
  unfold try_choices.
  destruct (random_choices options weights (rng (world s))) as [[items|e] g];
    [reflexivity|].
  destruct e; try reflexivity. rewrite seed_frequencies. reflexivity.
Qed.

Lemma step_stable (s : @Gen T) :
  stable (frequencies s) (frequencies (state_of (step s))).
Proof.
  unfold step. destruct (at_ s) as [|l rest|l x rest| |].
  - rewrite seed_frequencies. apply stable_refl.
  - destruct l, rest as [|item rest]; try apply stable_refl.
    rewrite try_choices_frequencies. apply stable_refl.
  - apply stable_refl.
  - pose proof (table_getitem_stable (frequencies s) (recent s)) as Hst.
    destruct (table_getitem (frequencies s) (recent s)) as [count t'].
    destruct (mixup_due (mixup_period s) (i s)).
    + rewrite seed_frequencies. exact Hst.
    + rewrite try_choices_frequencies. exact Hst.
  - apply stable_refl.
Qed.

Lemma next_stable (fuel : nat) (s : @Gen T) :
  match next fuel s with
  | Item _ s' => stable (frequencies s) (frequencies s')
  | Error _ s' => stable (frequencies s) (frequencies s')
  | Diverges => True
  end.
Proof.
  revert s; induction fuel as [|fuel IH]; intros s; cbn [next]; [exact I|].
  pose proof (step_stable s) as Hst.
  destruct (step s) as [s1|x s1|e s1]; cbn [state_of] in Hst;
    [|exact Hst|exact Hst].
  specialize (IH s1). destruct (next fuel s1); [| |exact I];
    eapply stable_trans; eauto.
Qed.

Lemma take_stable (fuel n : nat) (s : @Gen T) :
  stable (frequencies s)
         (table_after (snd (take fuel n s)) (frequencies s)).
Proof.
  revert s; induction n as [|n IH]; intros s; cbn [take];
    [apply stable_refl|].
  pose proof (next_stable fuel s) as Hst.
  destruct (next fuel s) as [x s1|e s1|]; [| exact Hst|apply stable_refl].
  specialize (IH s1). destruct (take fuel n s1) as [xs r]. cbn [snd] in *.
  destruct r; cbn [table_after] in *;
    [eapply stable_trans; eauto|eapply stable_trans; eauto|apply stable_refl].
Qed.

(** C6 (amended). A lookup never changes or removes what a table holds:
    after any [predict] call and after any number of pulls from a stream,
    every context reads the same successor map as before (an absent
    context reading as the empty map) and every key is still a key; the
    only change a lookup makes is to add the looked-up context, when it
    was absent, as a key with an empty successor map. *)
Theorem C6_lookups_keep_successor_maps :
  (forall (t : @Table T) (c : list T) (w : @World T),
      stable t (snd (fst (predict t c w)))
      /\ (table_find t c = None ->
          snd (fst (predict t c w)) = t ++ [(c, [])]))
  /\ (forall (fuel n : nat) (s : @Gen T),
        stable (frequencies s)
               (table_after (snd (take fuel n s)) (frequencies s))).
Proof.
  split.
  - intros t c w. rewrite predict_table. split.
    + apply table_getitem_stable.
    + intros Hf. unfold table_getitem. rewrite Hf. reflexivity.
  - apply take_stable.
Qed.

(** C3. On a table without any context the first pull raises the
    [IndexError] of [random.choice] on the empty list of known contexts
    (the empty-model error), the stream has emitted nothing, and it is
    closed. *)
Theorem C3_empty_table_first_pull_raises (table : @Table T) (k : nat)
  (mixup : option Z) (w : @World T) (fuel : nat) :
  table_keys table = [] ->
  exists s,
    next (S fuel) (generate table k mixup w) = Error IndexError s
    /\ emitted s = []
    /\ at_ s = Closed
    /\ world s = w.
Proof.
  intros Hk. cbn [next]. unfold step, generate, seed. cbn.
  unfold table_keys in Hk. rewrite Hk. cbn. eexists. split; [reflexivity|]. cbn. auto.
Qed.

(** *** The recent-context buffer *)

Lemma last_k_length (a : list T) (k : nat) : length (last_k a k) <= k.
Proof. unfold last_k. rewrite length_skipn. lia. Qed.

Lemma deque_append_last_k (k : nat) (r : list T) (x : T) :
  length r <= k -> deque_append k r x = last_k (r ++ [x]) k.
Proof.
  intros Hr. unfold deque_append, last_k.
  rewrite length_app. cbn [length].
  destruct (k <? length r + 1) eqn:Hlt.
  - apply Nat.ltb_lt in Hlt.
    replace (length r + 1 - k) with 1 by lia.
    destruct (r ++ [x]); reflexivity.
  - apply Nat.ltb_ge in Hlt.
    replace (length r + 1 - k) with 0 by lia. reflexivity.
Qed.

Lemma last_k_app (a c : list T) (k : nat) :
  last_k (last_k a k ++ c) k = last_k (a ++ c) k.
Proof.
  unfold last_k. rewrite !length_app, length_skipn.
  destruct (le_lt_dec (length a) k) as [Hle|Hgt].
  - replace (length a - k) with 0 by lia. cbn [skipn].
    f_equal. lia.
  - replace (length a - (length a - k) + length c - k) with (length c)
      by lia.
    replace (length a + length c - k) with (length c + (length a - k))
      by lia.
    rewrite <- skipn_skipn. f_equal. rewrite skipn_app.
    replace (length a - k - length a) with 0 by lia. reflexivity.
Qed.

Lemma fold_append_last_k (k : nat) (c r : list T) :
  length r <= k -> fold_left (deque_append k) c r = last_k (r ++ c) k.
Proof.
  revert r; induction c as [|x c IH]; intros r Hr; cbn [fold_left].
  - rewrite app_nil_r. unfold last_k.
    replace (length r - k) with 0 by lia. reflexivity.
  - rewrite deque_append_last_k by exact Hr.
    rewrite IH by apply last_k_length.
    rewrite last_k_app, <- app_assoc. reflexivity.
Qed.

Lemma last_k_full (r c : list T) (k : nat) :
  length c = k -> last_k (r ++ c) k = c.
Proof.
  intros Hc. unfold last_k. rewrite length_app, skipn_app.
  replace (length r + length c - k) with (length r) by lia.
  rewrite skipn_all, Nat.sub_diag. reflexivity.
Qed.

(** *** Entering and running a [for] loop *)

Lemma random_choice_in {X : Type} (sq : list X) (g g' : Rng) (x : X) :
  random_choice sq g = (Ret x, g') -> In x sq.
Proof.
  intros H. destruct sq as [|x0 sq]; [discriminate|].
  destruct (random_choice_nth (x0 :: sq) g) as (y & Hy & Hnth);
    [discriminate|].
  rewrite Hy in H. injection H as <- _. eapply nth_error_In; eauto.
Qed.

Lemma seed_go (l : @loop T) (s s1 : @Gen T) :
  seed l s = Go s1 ->
  exists c g,
    In c (known_subsequences s)
    /\ s1 = goto (For l c) (with_world (with_rng g (world s)) s).
Proof.
  unfold seed.
  destruct (random_choice (known_subsequences s) (rng (world s)))
    as [[c|e] g] eqn:Hc; [|discriminate].
  intros H. injection H as <-. exists c, g. split; [|reflexivity].
  eapply random_choice_in; eauto.
Qed.

Lemma seed_never_raises (l : @loop T) (s : @Gen T) :
  known_subsequences s <> [] -> exists s1, seed l s = Go s1.
Proof.
  intros Hk. unfold seed.
  destruct (random_choice_nth (known_subsequences s) (rng (world s)) Hk)
    as (c & Hc & _).
  rewrite Hc. eexists. reflexivity.
Qed.

Lemma try_choices_go (options : list T) (weights : list nat)
  (s s1 : @Gen T) :
  try_choices options weights s = Go s1 ->
  (exists items g,
      s1 = goto (For LChoices items) (with_world (with_rng g (world s)) s))
  \/ (exists c g,
        In c (known_subsequences s)
        /\ s1 = goto (For LRecovery c)
                    (with_world
                       (with_rng g (print (IDK (recent s)) (world s))) s)).
Proof.
  unfold try_choices.
  destruct (random_choices options weights (rng (world s)))
    as [[items|e] g]; intros H.
  - left. injection H as <-. exists items, g. reflexivity.
  - destruct e; try discriminate. right.
    apply seed_go in H. destruct H as (c & g' & Hin & ->).
    exists c, g'. split; [exact Hin|reflexivity].
Qed.

(** Pulling through a loop over [c] yields [c] in order and pushes each
    item on the buffer. *)
Lemma run_for_loop (c : list T) (l : @loop T) (s1 : @Gen T) :
  at_ s1 = For l c ->
  exists s3,
    steps s1 c s3
    /\ at_ s3 = For l []
    /\ recent s3
       = fold_left (deque_append (length_of_history s1)) c (recent s1)
    /\ emitted s3 = emitted s1 ++ c.
Proof.
  revert s1; induction c as [|x c IH]; intros s1 Hat.
  - exists s1. rewrite app_nil_r. repeat split; [constructor|exact Hat].
  - set (sY := goto (Yielded l x c) (with_emitted (emitted s1 ++ [x]) s1)).
    set (sF := goto (For l c)
                    (with_recent
                       (deque_append (length_of_history sY) (recent sY) x)
                       sY)).
    assert (H1 : step s1 = Yield x sY)
      by (unfold step; rewrite Hat; destruct l; reflexivity).
    assert (H2 : step sY = Go sF) by reflexivity.
    destruct (IH sF eq_refl) as (s3 & Hst & Hat3 & Hrec & Hem).
    exists s3. split; [|split; [exact Hat3|split]].
    + eapply steps_yield; [exact H1|]. eapply steps_go; [exact H2|exact Hst].
    + rewrite Hrec. reflexivity.
    + rewrite Hem. cbn. rewrite <- app_assoc. reflexivity.
Qed.

(** *** Invariants of a stream *)

Lemma seed_never_yields (l : @loop T) (s s1 : @Gen T) (y : T) :
  seed l s <> Yield y s1.
Proof.
  unfold seed.
  destruct (random_choice (known_subsequences s) (rng (world s)))
    as [[c|e] g]; discriminate.
Qed.

Lemma try_choices_never_yields (options : list T) (weights : list nat)
  (s s1 : @Gen T) (y : T) :
  try_choices options weights s <> Yield y s1.
Proof.
  unfold try_choices.
  destruct (random_choices options weights (rng (world s)))
    as [[items|e] g]; [discriminate|].
  destruct e; try discriminate. apply seed_never_yields.
Qed.

Ltac discriminate_seed :=
  match goal with
  | H : seed _ _ = Yield _ _ |- _ =>
      exfalso; exact (seed_never_yields _ _ _ _ H)
  end.

Ltac discriminate_try :=
  match goal with
  | H : try_choices _ _ _ = Yield _ _ |- _ =>
      exfalso; exact (try_choices_never_yields _ _ _ _ _ H)
  end.


Lemma well_formed_generate (table : @Table T) (k : nat) (mixup : option Z)
  (w : @World T) :
  well_formed table k (generate table k mixup w).
Proof. unfold well_formed, generate. cbn. auto with arith. Qed.

Lemma deque_append_length (k : nat) (r : list T) (x : T) :
  length r <= k -> length (deque_append k r x) <= k.
Proof.
  intros Hr. rewrite deque_append_last_k by exact Hr. apply last_k_length.
Qed.

Lemma well_formed_seed (table : @Table T) (k : nat) (l : @loop T)
  (s s1 : @Gen T) :
  length_of_history s = k -> length (recent s) <= k ->
  known_subsequences s = table_keys table ->
  seed l s = Go s1 -> well_formed table k s1.
Proof.
  intros Hk Hr Hkn H. apply seed_go in H. destruct H as (c & g & _ & ->).
  unfold well_formed. cbn. auto.
Qed.

Lemma well_formed_try_choices (table : @Table T) (k : nat)
  (options : list T) (weights : list nat) (s s1 : @Gen T) :
  length_of_history s = k -> length (recent s) <= k ->
  known_subsequences s = table_keys table ->
  try_choices options weights s = Go s1 -> well_formed table k s1.
Proof.
  intros Hk Hr Hkn H. apply try_choices_go in H.
  destruct H as [(items & g & ->)|(c & g & _ & ->)];
    unfold well_formed; cbn; auto.
Qed.

Lemma well_formed_step (table : @Table T) (k : nat) (s : @Gen T) :
  well_formed table k s ->
  match step s with
  | Go s1 => well_formed table k s1
  | Yield _ s1 => well_formed table k s1
  | Throw _ _ => True
  end.
Proof.
  intros (Hk & Hr & Hat). unfold step.
  destruct (at_ s) as [|l rest|l x rest| |] eqn:Hp.
  - match goal with |- context [seed ?l ?s0] =>
      destruct (seed l s0) as [s1|y s1|e s1] eqn:Hs; [|discriminate_seed|exact I]
    end.
    eapply well_formed_seed; [| | |exact Hs]; cbn; auto with arith.
    rewrite Hat. reflexivity.
  - destruct l, rest as [|item rest];
      try (unfold well_formed; cbn; rewrite ?length_app; auto; fail).
    destruct (try_choices options weights s) as [s1|y s1|e s1] eqn:Hs;
      [|discriminate_try|exact I].
    eapply well_formed_try_choices; eauto.
  - unfold well_formed. cbn. split; [exact Hk|]. split; [|exact Hat].
    rewrite Hk. apply deque_append_length. exact Hr.
  - destruct (table_getitem (frequencies s) (recent s)) as [count t'].
    destruct (mixup_due (mixup_period s) (i s)).
    + match goal with |- context [seed ?l ?s0] =>
        destruct (seed l s0) as [s1|y s1|e s1] eqn:Hs;
          [|discriminate_seed|exact I]
      end.
      eapply well_formed_seed; [| | |exact Hs]; cbn; auto.
    + match goal with |- context [try_choices ?o ?w ?s0] =>
        destruct (try_choices o w s0) as [s1|y s1|e s1] eqn:Hs;
          [|discriminate_try|exact I]
      end.
      eapply well_formed_try_choices; [| | |exact Hs]; cbn; auto.
  - exact I.
Qed.

Lemma well_formed_steps (table : @Table T) (k : nat) (s s' : @Gen T)
  (out : list T) :
  steps s out s' -> well_formed table k s -> well_formed table k s'.
Proof.
  induction 1 as [s|s s1 s2 out Hs _ IH|s x s1 s2 out Hs _ IH]; intros Hwf;
    [exact Hwf| |]; apply IH;
    pose proof (well_formed_step table k s Hwf) as H; rewrite Hs in H;
    exact H.
Qed.

Lemma steps_emitted (s s' : @Gen T) (out : list T) :
  steps s out s' -> emitted s' = emitted s ++ out.
Proof.
  induction 1 as [s|s s1 s2 out Hs _ IH|s x s1 s2 out Hs _ IH].
  - rewrite app_nil_r. reflexivity.
  - rewrite IH. f_equal. unfold step in Hs.
    destruct (at_ s) as [|l rest|l y rest| |].
    + apply seed_go in Hs. destruct Hs as (c & g & _ & ->). reflexivity.
    + destruct l, rest as [|item rest]; try discriminate;
        try (injection Hs as <-; reflexivity).
      apply try_choices_go in Hs.
      destruct Hs as [(items & g & ->)|(c & g & _ & ->)]; reflexivity.
    + injection Hs as <-. reflexivity.
    + destruct (table_getitem (frequencies s) (recent s)) as [count t'].
      destruct (mixup_due (mixup_period s) (i s)).
      * apply seed_go in Hs. destruct Hs as (c & g & _ & ->). reflexivity.
      * apply try_choices_go in Hs.
        destruct Hs as [(items & g & ->)|(c & g & _ & ->)]; reflexivity.
    + discriminate.
  - rewrite IH. unfold step in Hs.
    destruct (at_ s) as [|l rest|l y rest| |].
    + discriminate_seed.
    + destruct l, rest as [|item rest]; try discriminate;
        try (injection Hs as <- <-; cbn; rewrite <- app_assoc; reflexivity).
      discriminate_try.
    + discriminate.
    + destruct (table_getitem (frequencies s) (recent s)) as [count t'].
      destruct (mixup_due (mixup_period s) (i s));
        [discriminate_seed|discriminate_try].
    + discriminate.
Qed.

Lemma steps_app (s1 s2 s3 : @Gen T) (out1 out2 : list T) :
  steps s1 out1 s2 -> steps s2 out2 s3 -> steps s1 (out1 ++ out2) s3.
Proof.
  induction 1 as [s|s sa sb out Hs _ IH|s x sa sb out Hs _ IH]; intros H2.
  - exact H2.
  - eapply steps_go; eauto.
  - cbn [app]. eapply steps_yield; eauto.
Qed.

(** A pull that returns an item is a run of moves with that one yield. *)
Lemma next_steps (fuel : nat) (s s' : @Gen T) (x : T) :
  next fuel s = Item x s' -> steps s [x] s'.
Proof.
  revert s; induction fuel as [|fuel IH]; intros s H; [discriminate|].
  cbn [next] in H. destruct (step s) as [s1|y s1|e s1] eqn:Hs.
  - eapply steps_go; eauto.
  - injection H as <- <-. eapply steps_yield; [exact Hs|constructor].
  - discriminate.
Qed.

Lemma take_steps (fuel n : nat) (s s' : @Gen T) (xs : list T) :
  take fuel n s = (xs, Live s') -> steps s xs s'.
Proof.
  revert s xs; induction n as [|n IH]; intros s xs H; cbn [take] in H.
  - injection H as <- <-. constructor.
  - destruct (next fuel s) as [x s1|e s1|] eqn:Hn; try discriminate.
    destruct (take fuel n s1) as [ys r] eqn:Ht.
    injection H as <- ->.
    apply (steps_app s s1 s' [x] ys); [eapply next_steps; eauto|].
    apply IH. exact Ht.
Qed.

(** Where a loop can be entered from. *)
Lemma enters_seed_in (s s1 : @Gen T) (l : @loop T) (c : list T) :
  enters s l c s1 -> is_seed l = true -> at_ s <> Entry ->
  In c (known_subsequences s)
  /\ recent s1 = recent s /\ emitted s1 = emitted s
  /\ length_of_history s1 = length_of_history s.
Proof.
  intros (Hsus & Hs & Hat1) Hseed Hne. unfold suspended in Hsus.
  unfold step in Hs.
  destruct (at_ s) as [|l0 rest|l0 y rest| |]; try discriminate;
    [congruence| |].
  - destruct l0, rest as [|item rest]; try discriminate;
      try (injection Hs as <-; discriminate).
    apply try_choices_go in Hs.
    destruct Hs as [(items & g & ->)|(c' & g & Hin & ->)];
      cbn in Hat1; injection Hat1 as <- <-; [discriminate|auto].
  - destruct (table_getitem (frequencies s) (recent s)) as [count t'].
    destruct (mixup_due (mixup_period s) (i s)).
    + apply seed_go in Hs. destruct Hs as (c' & g & Hin & ->).
      cbn in Hat1. injection Hat1 as <- <-. cbn in *. auto.
    + apply try_choices_go in Hs.
      destruct Hs as [(items & g & ->)|(c' & g & Hin & ->)];
        cbn in Hat1; injection Hat1 as <- <-; [discriminate|cbn in *; auto].
Qed.

Lemma enters_initial (s s1 : @Gen T) (l : @loop T) (c : list T) :
  enters s l c s1 -> at_ s = Entry ->
  In c (table_keys (frequencies s))
  /\ recent s1 = [] /\ emitted s1 = emitted s
  /\ length_of_history s1 = length_of_history s.
Proof.
  intros (_ & Hs & Hat1) Hat. unfold step in Hs. rewrite Hat in Hs.
  apply seed_go in Hs. destruct Hs as (c' & g & Hin & ->).
  cbn in Hat1. injection Hat1 as <- <-. cbn in *. auto.
Qed.

(** C9. Seed coverage: on a table with at least one context, all of
    whose keys are [k]-tuples, whenever a stream enters one of its three
    seeding loops (initial, mixup, recovery) the chosen list is a key of
    the table, the loop yields exactly its [k] items in order, and when
    the loop ends the buffer of recent items is that key. *)
Theorem C9_seed_coverage (table : @Table T) (k : nat) (mixup : option Z)
  (w : @World T) (out : list T) (s s1 : @Gen T) (l : @loop T)
  (c : list T) :
  table_keys table <> [] ->
  (forall c', In c' (table_keys table) -> length c' = k) ->
  steps (generate table k mixup w) out s ->
  enters s l c s1 ->
  is_seed l = true ->
  In c (table_keys table)
  /\ length c = k
  /\ exists s3,
       steps s1 c s3
       /\ at_ s3 = For l []
       /\ recent s3 = c
       /\ emitted s3 = out ++ c.
Proof.
  intros Hne Hlen Hreach Hent Hseed.
  pose proof (well_formed_steps table k _ _ _ Hreach
                (well_formed_generate table k mixup w)) as (Hk & Hr & Hat).
  pose proof (steps_emitted _ _ _ Hreach) as Hout. cbn in Hout.
  assert (Hin : In c (table_keys table)
                /\ length (recent s1) <= k /\ emitted s1 = out
                /\ length_of_history s1 = k).
  { destruct (at_ s) eqn:Hp.
    - destruct (enters_initial s s1 l c Hent Hp) as (Hi & Hr1 & He & Hl).
      rewrite Hat in Hi. rewrite Hr1, He, Hl, Hout, Hk. cbn.
      auto with arith.
    - destruct (enters_seed_in s s1 l c Hent Hseed) as (Hi & Hr1 & He & Hl);
        [congruence|]. rewrite Hat in Hi. rewrite Hr1, He, Hl, Hout, Hk. auto.
    - destruct Hent as (Hsus & _). unfold suspended in Hsus.
      rewrite Hp in Hsus. discriminate.
    - destruct (enters_seed_in s s1 l c Hent Hseed) as (Hi & Hr1 & He & Hl);
        [congruence|]. rewrite Hat in Hi. rewrite Hr1, He, Hl, Hout, Hk. auto.
    - destruct (enters_seed_in s s1 l c Hent Hseed) as (Hi & Hr1 & He & Hl);
        [congruence|]. rewrite Hat in Hi. rewrite Hr1, He, Hl, Hout, Hk. auto. }
  destruct Hin as (Hi & Hr1 & He1 & Hl1).
  split; [exact Hi|]. split; [apply Hlen; exact Hi|].
  destruct Hent as (_ & _ & Hat1).
  destruct (run_for_loop c l s1 Hat1) as (s3 & Hst & Hat3 & Hrec & Hem).
  exists s3. split; [exact Hst|]. split; [exact Hat3|]. split.
  - rewrite Hrec, Hl1, fold_append_last_k by exact Hr1.
    apply last_k_full. apply Hlen. exact Hi.
  - rewrite Hem, He1. reflexivity.
Qed.

(** *** The mixup test *)

Lemma seed_i (l : @loop T) (s : @Gen T) :
  i (state_of (seed l s)) = i s
  /\ mixup_period (state_of (seed l s)) = mixup_period s.
Proof.
  unfold seed.
  destruct (random_choice (known_subsequences s) (rng (world s)))
    as [[c|e] g]; split; reflexivity.
Qed.

Lemma try_choices_i (options : list T) (weights : list nat) (s : @Gen T) :
  i (state_of (try_choices options weights s)) = i s
  /\ mixup_period (state_of (try_choices options weights s))
     = mixup_period s.
Proof.
  unfold try_choices.
  destruct (random_choices options weights (rng (world s))) as [[items|e] g];
    [split; reflexivity|].
  destruct e; try (split; reflexivity).
  match goal with |- context [seed ?l ?s0] =>
    destruct (seed_i l s0) as [H1 H2]; rewrite H1, H2
  end.
  split; reflexivity.
Qed.

Ltac keep_i :=
  match goal with
  | |- context [seed ?l ?s0] =>
      let H1 := fresh in let H2 := fresh in
      destruct (seed_i l s0) as [H1 H2]; rewrite H1, H2; cbn; auto
  | |- context [try_choices ?o ?w ?s0] =>
      let H1 := fresh in let H2 := fresh in
      destruct (try_choices_i o w s0) as [H1 H2]; rewrite H1, H2; cbn; auto
  end.

(** The only assignment to [i] is [i = 0] on line 67 (and none to
    [mixup_period]). *)
Lemma step_keeps_i (s : @Gen T) :
  i s = 0%Z ->
  i (state_of (step s)) = 0%Z
  /\ mixup_period (state_of (step s)) = mixup_period s.
Proof.
  intros Hi. unfold step. destruct (at_ s) as [|l rest|l x rest| |].
  - keep_i.
  - destruct l, rest as [|item rest]; try (cbn; auto; fail). keep_i.
  - cbn. auto.
  - destruct (table_getitem (frequencies s) (recent s)) as [count t'].
    destruct (mixup_due (mixup_period s) (i s)); keep_i.
  - cbn. auto.
Qed.

Lemma steps_keep_i (s s' : @Gen T) (out : list T) :
  steps s out s' -> i s = 0%Z ->
  i s' = 0%Z /\ mixup_period s' = mixup_period s.
Proof.
  induction 1 as [s|s s1 s2 out Hs _ IH|s x s1 s2 out Hs _ IH]; intros Hi;
    [auto| |];
    pose proof (step_keeps_i s Hi) as H; rewrite Hs in H; cbn in H;
    destruct H as [H1 H2]; destruct (IH H1) as [IH1 IH2]; split; congruence.
Qed.

Lemma mixup_due_at_zero (m : Z) : m <> 0%Z -> mixup_due (Some m) 0 = true.
Proof.
  intros Hm. unfold mixup_due. rewrite Zmod_0_l.
  apply Z.eqb_neq in Hm. rewrite Hm. reflexivity.
Qed.

(** With any non-zero [mixup_period] every pass of the loop re-seeds,
    whatever has been emitted, and carries the options read before the
    re-seed to the sampling that follows it. *)
Lemma mixup_reseeds_at_every_pass (table : @Table T) (k : nat) (m : Z)
  (w : @World T) (out : list T) (s : @Gen T) :
  table_keys table <> [] -> m <> 0%Z ->
  steps (generate table k (Some m) w) out s ->
  at_ s = While ->
  exists c s1,
    enters s
      (LMixup
         (counter_keys (fst (table_getitem (frequencies s) (recent s))))
         (map (counter_get (fst (table_getitem (frequencies s) (recent s))))
            (counter_keys (fst (table_getitem (frequencies s) (recent s))))))
      c s1.
Proof.
  intros Hne Hm Hreach Hat.
  destruct (steps_keep_i _ _ _ Hreach eq_refl) as [Hi Hmp]. cbn in Hmp.
  pose proof (well_formed_steps table k _ _ _ Hreach
                (well_formed_generate table k (Some m) w)) as (_ & _ & Hkn).
  rewrite Hat in Hkn.
  unfold enters, suspended, step. rewrite Hat, Hi, Hmp.
  rewrite mixup_due_at_zero by exact Hm.
  destruct (table_getitem (frequencies s) (recent s)) as [count t'].
  cbn [fst].
  match goal with |- context [seed ?l ?s0] =>
    destruct (seed_never_raises l s0) as (s1 & Hs1);
      [cbn; rewrite Hkn; exact Hne|];
    pose proof (seed_go l s0 s1 Hs1) as (c & g & _ & Heq)
  end.
  exists c, s1. rewrite Hs1. repeat split. rewrite Heq. reflexivity.
Qed.

(** *** Context continuity without a mixup period *)

Lemma continuous_generate (table : @Table T) (k : nat) (mixup : option Z)
  (w : @World T) :
  continuous mixup k (generate table k mixup w).
Proof. unfold continuous, generate. cbn. auto. Qed.

Lemma continuous_step (mixup : option Z) (k : nat) (s : @Gen T) :
  mixup_due mixup 0 = false ->
  continuous mixup k s ->
  match step s with
  | Go s1 => continuous mixup k s1
  | Yield _ s1 => continuous mixup k s1
  | Throw _ _ => True
  end.
Proof.
  intros Hoff (Hi & Hmp & Hk & Hat). unfold step.
  destruct (at_ s) as [|l rest|l x rest| |] eqn:Hp.
  - match goal with |- context [seed ?l ?s0] =>
      destruct (seed l s0) as [s1|y s1|e s1] eqn:Hs;
        [|discriminate_seed|exact I]
    end.
    apply seed_go in Hs. destruct Hs as (c & g & _ & ->).
    unfold continuous. cbn. rewrite Hat. auto.
  - destruct Hat as [Hrec Hl].
    destruct l, rest as [|item rest]; try discriminate Hl;
      unfold continuous; cbn; repeat split; auto;
      rewrite Hrec, deque_append_last_k by apply last_k_length;
      apply last_k_app.
  - destruct Hat as [Hrec Hl]. unfold continuous. cbn.
    rewrite Hk. auto.
  - rewrite Hmp, Hi, Hoff.
    destruct (table_getitem (frequencies s) (recent s)) as [count t'].
    match goal with |- context [try_choices ?o ?w ?s0] =>
      destruct (try_choices o w s0) as [s1|y s1|e s1] eqn:Hs;
        [|discriminate_try|exact I]
    end.
    apply try_choices_go in Hs.
    destruct Hs as [(items & g & ->)|(c & g & _ & ->)];
      unfold continuous; cbn; auto.
  - exact I.
Qed.

Lemma continuous_steps (mixup : option Z) (k : nat) (s s' : @Gen T)
  (out : list T) :
  mixup_due mixup 0 = false ->
  steps s out s' -> continuous mixup k s -> continuous mixup k s'.
Proof.
  intros Hoff.
  induction 1 as [s|s s1 s2 out Hs _ IH|s x s1 s2 out Hs _ IH]; intros Hc;
    [exact Hc| |]; apply IH;
    pose proof (continuous_step mixup k s Hoff Hc) as H; rewrite Hs in H;
    exact H.
Qed.

(** Without a mixup period ([None], or 0, which is falsy) every sampling
    uses the successors of the last [k] items emitted. *)
Lemma no_mixup_context_continuity (table : @Table T) (k : nat)
  (mixup : option Z) (w : @World T) (out : list T) (s s1 : @Gen T)
  (items : list T) :
  mixup_due mixup 0 = false ->
  steps (generate table k mixup w) out s ->
  enters s LChoices items s1 ->
  context s1 = last_k out k /\ emitted s1 = out.
Proof.
  intros Hoff Hreach (Hsus & Hs & Hat1).
  pose proof (continuous_steps mixup k _ _ _ Hoff Hreach
                (continuous_generate table k mixup w))
    as (Hi & Hmp & Hk & Hat).
  pose proof (steps_emitted _ _ _ Hreach) as Hout. cbn in Hout.
  unfold suspended in Hsus. unfold step in Hs.
  destruct (at_ s) as [|l rest|l x rest| |] eqn:Hp; try discriminate.
  - apply seed_go in Hs. destruct Hs as (c & g & _ & ->). discriminate.
  - destruct Hat as [_ Hl].
    destruct l, rest as [|item rest]; try discriminate;
      injection Hs as <-; discriminate.
  - rewrite Hmp, Hi, Hoff in Hs.
    destruct (table_getitem (frequencies s) (recent s)) as [count t'].
    apply try_choices_go in Hs.
    destruct Hs as [(items' & g & ->)|(c & g & _ & ->)]; [|discriminate].
    cbn. rewrite Hat, Hout. auto.
Qed.

End Generator.

Lemma C1_count_conservation_witness :
  In [A] (table_keys (calculate_frequencies [A; B; A; B; A; C] 1))
  /\ length [A] = 1
  /\ total (successors (calculate_frequencies [A; B; A; B; A; C] 1) [A])
     = length (context_positions [A; B; A; B; A; C] 1 [A])
  /\ forall s,
       counter_get (successors (calculate_frequencies [A; B; A; B; A; C] 1) [A]) s
       = length (followed_positions [A; B; A; B; A; C] 1 [A] s).
Proof.
  assert (H : In [A] (table_keys (calculate_frequencies [A; B; A; B; A; C] 1)))
    by (simpl; auto).
  split; [exact H|].
  exact (C1_count_conservation [A; B; A; B; A; C] 1 [A] H).
Defined.

Lemma C8_short_sequence_empty_table_witness :
  length [A; B] < 2 + 1
  /\ calculate_frequencies [A; B] 2 = []
  /\ table_keys (calculate_frequencies [A; B] 2) = [].
Proof.
  assert (H : length [A; B] < 2 + 1) by (simpl; lia).
  split; [exact H|].
  exact (C8_short_sequence_empty_table [A; B] 2 H).
Defined.

Lemma C3_empty_table_first_pull_raises_witness :
  exists s,
    next 1 (generate (calculate_frequencies [A] 1) 1 (Some 2%Z) (w0 [0]))
    = Error IndexError s
    /\ emitted s = [] /\ at_ s = Closed /\ world s = w0 [0].
Proof.
  apply (C3_empty_table_first_pull_raises
           (calculate_frequencies [A] 1) 1 (Some 2%Z) (w0 [0]) 0).
  reflexivity.
Defined.

(** C2. With order 0 the slice [history[-0:]] is the whole history, so the
    lookup key is never the empty context that the table holds: on
    [A, A, B] the empty context has successors {A: 2, B: 1}, yet the
    fallback runs and, with the draw 2, returns [B]. *)
Theorem C2_order_zero_returns_non_maximal :
  successors (calculate_frequencies [A; A; B] 0) (last_k [A; A; B] 0)
  = [(A, 2); (B, 1)]
  /\ slice_last [A; A; B] 0 = [A; A; B]
  /\ predict_from_history [A; A; B] 0 (w0 [2]) = (Ret B, mkWorld [] [Err]).
Proof. repeat split. Qed.

Example predict_scenario (w : @World Sym) :
  predict_from_history [A; B; A; B; A] 1 w = (Ret B, w).
Proof. reflexivity. Qed.

Lemma C7_empty_history_raises :
  ~ (forall (history : list Sym) (k : nat) (w : World),
        successors (calculate_frequencies history k) (last_k history k) = [] ->
        exists x w', predict_from_history history k w = (Ret x, w')).
Proof.
  intros H. destruct (H [] 1 (w0 []) eq_refl) as (x & w' & Hx).
  discriminate Hx.
Qed.

Lemma C7_fallback_returns_recent_item_witness :
  exists x,
    predict_from_history [A; B] 1 (w0 [5])
    = (Ret x,
       with_rng (snd (randbelow (length (last_k [A; B] 1)) (rng (w0 [5]))))
                (print Err (w0 [5])))
    /\ nth_error (last_k [A; B] 1)
                 (fst (randbelow (length (last_k [A; B] 1)) (rng (w0 [5]))))
       = Some x
    /\ In x (last_k [A; B] 1).
Proof.
  apply (C7_fallback_returns_recent_item [A; B] 1 (w0 [5])).
  - discriminate.
  - reflexivity.
Defined.

Example tie_break_scenario (w : @World Sym) :
  predict (calculate_frequencies [A; C; A; B] 1) [A] w
  = (Ret C, calculate_frequencies [A; C; A; B] 1, w).
Proof. reflexivity. Qed.

Lemma C10_tie_break_first_recorded_witness :
  exists s,
    (forall w, predict (calculate_frequencies [A; C; A; B; A] 1) [A] w
               = (Ret s, calculate_frequencies [A; C; A; B; A] 1, w))
    /\ (forall t,
          counter_get (successors (calculate_frequencies [A; C; A; B; A] 1)
                                  [A]) t
          <= counter_get (successors (calculate_frequencies [A; C; A; B; A] 1)
                                     [A]) s)
    /\ (exists l1 l2,
          counter_keys (successors (calculate_frequencies [A; C; A; B; A] 1)
                                   [A])
          = l1 ++ s :: l2
          /\ forall y,
               In y l1 ->
               counter_get (successors (calculate_frequencies [A; C; A; B; A] 1)
                                       [A]) y
               < counter_get (successors
                                (calculate_frequencies [A; C; A; B; A] 1) [A])
                             s)
    /\ (forall t,
          t <> s ->
          counter_get (successors (calculate_frequencies [A; C; A; B; A] 1)
                                  [A]) t
          = counter_get (successors (calculate_frequencies [A; C; A; B; A] 1)
                                    [A]) s ->
          exists ps,
            hd_error (followed_positions [A; C; A; B; A] 1 [A] s) = Some ps
            /\ forall pt,
                 In pt (followed_positions [A; C; A; B; A] 1 [A] t) ->
                 ps < pt).
Proof.
  apply (C10_tie_break_first_recorded [A; C; A; B; A] 1 [A]).
  discriminate.
Defined.

Lemma C6_predict_adds_a_key :
  ~ (forall (t : @Table Sym) (c : list Sym) (w : World),
        table_keys (snd (fst (predict t c w))) = table_keys t).
Proof.
  intros H. specialize (H t1 [C] (w0 [])). discriminate H.
Qed.

Example generate_adds_a_key :
  table_after
    (snd (take 4 3 (generate (calculate_frequencies [A; B] 1) 1 None (w0 []))))
    []
  = [([A], [(B, 1)]); ([B], [])].
Proof. reflexivity. Qed.

(** C4. On [mixup_run] ([mixup_period = 2]) the second pull, made when one
    item has been emitted, already yields from the re-seeding loop of
    line 75: [i] stays 0, so [i % mixup_period == 0] holds at every pass.
    When that loop ends the same pass goes on to [random.choices] and
    yields a sampled item as well. *)
Theorem C4_mixup_reseeds_off_period_and_still_steps :
  next 4 mixup_run = Item A (frame (Yielded LInitial A []) [] [1; 0] [A] [])
  /\ next 4 (frame (Yielded LInitial A []) [] [1; 0] [A] [])
     = Item B (frame (Yielded (LMixup [B] [1]) B []) [A] [0] [A; B] [A])
  /\ (Z.of_nat (length [A]) mod 2 <> 0)%Z
  /\ step (frame (Yielded (LMixup [B] [1]) B []) [A] [0] [A; B] [A])
     = Go (frame (For (LMixup [B] [1]) []) [B] [0] [A; B] [A])
  /\ step (frame (For (LMixup [B] [1]) []) [B] [0] [A; B] [A])
     = Go (frame (For LChoices [B]) [B] [] [A; B] [A])
  /\ step (frame (For LChoices [B]) [B] [] [A; B] [A])
     = Yield B (frame (Yielded LChoices B []) [B] [] [A; B; B] [A]).
Proof. repeat split. discriminate. Qed.

(** C5. On [mixup_run] the third item is sampled from the successors of
    the context (A) looked up before the re-seed, while the last item
    emitted is [B]; [B] is not even a recorded successor of (B). *)
Theorem C5_sample_uses_context_before_reseed :
  take 4 2 mixup_run
  = ([A; B], Live (frame (Yielded (LMixup [B] [1]) B []) [A] [0] [A; B] [A]))
  /\ enters (frame (For (LMixup [B] [1]) []) [B] [0] [A; B] [A])
            LChoices [B]
            (frame (For LChoices [B]) [B] [] [A; B] [A])
  /\ context (frame (For LChoices [B]) [B] [] [A; B] [A]) = [A]
  /\ last_k (emitted (frame (For LChoices [B]) [B] [] [A; B] [A])) 1 = [B]
  /\ counter_keys (successors t1 [A]) = [B]
  /\ counter_get (successors t1 [B]) B = 0.
Proof. repeat split. Qed.

Lemma C9_seed_coverage_witness :
  In [B] (table_keys t1)
  /\ length [B] = 1
  /\ exists s3,
       steps (state_of (step (generate t1 1 None (w0 [1])))) [B] s3
       /\ at_ s3 = For LInitial []
       /\ recent s3 = [B]
       /\ emitted s3 = [] ++ [B].
Proof.
  apply (C9_seed_coverage t1 1 None (w0 [1]) []
           (generate t1 1 None (w0 [1]))
           (state_of (step (generate t1 1 None (w0 [1])))) LInitial [B]).
  - discriminate.
  - intros c' [<-|[<-|[]]]; reflexivity.
  - constructor.
  - repeat split.
  - reflexivity.
Defined.

(** * More of the builder and the predictor *)

Section BuilderMore.

Context {T : Type} {T_eq_dec : Hashable T}.

Lemma keys_fold_mono (l : list (list T)) (t : Table) (c : list T) :
  In c (table_keys t) -> In c (table_keys (fold_left record_tuple l t)).
Proof.
  revert t; induction l as [|tup l IH]; intros t Hin; cbn [fold_left];
    [exact Hin|].
  apply IH. unfold record_tuple.
  destruct (unpack tup) as [[pre x]|]; [|exact Hin].
  apply table_keys_record. left. exact Hin.
Qed.

Lemma keys_fold_intro (l : list (list T)) (t : Table) (c : list T) (x : T) :
  In (c ++ [x]) l -> In c (table_keys (fold_left record_tuple l t)).
Proof.
  revert t; induction l as [|tup l IH]; intros t Hin; [destruct Hin|].
  cbn [fold_left]. destruct Hin as [->|Hin]; [|apply IH; exact Hin].
  apply keys_fold_mono. unfold record_tuple. rewrite unpack_snoc.
  apply table_keys_record. right. reflexivity.
Qed.

Lemma window_prefix (sq : list T) (k p : nat) (c : list T) (x : T) :
  p < length sq - k ->
  window_at sq (S k) p = c ++ [x] -> window_at sq k p = c.
Proof.
  intros Hp Hw. destruct (window_succ sq k p Hp) as [y Hy].
  rewrite Hy in Hw. apply app_inj_tail in Hw. tauto.
Qed.

Lemma in_windows (sq : list T) (k : nat) (tup : list T) :
  In tup (windows sq (S k))
  <-> exists p, p < length sq - k /\ window_at sq (S k) p = tup.
Proof.
  rewrite windows_succ_positions, in_map_iff. split.
  - intros (p & Hp & Hin). apply in_seq in Hin. exists p. split; [lia|auto].
  - intros (p & Hp & Hw). exists p. split; [exact Hw|]. apply in_seq. lia.
Qed.

(** X1. [group_by_n] with [n = 0] yields nothing; with [n >= 1] it yields
    the [len - n + 1] consecutive blocks of [n] items in order, none when
    the sequence is shorter than [n]. *)
Theorem X1_group_by_n_blocks (sq : list T) (n : nat) :
  group_by_n sq 0 = []
  /\ length (group_by_n sq (S n)) = length sq - n
  /\ forall p,
       p < length sq - n ->
       nth_error (group_by_n sq (S n)) p = Some (firstn (S n) (skipn p sq))
       /\ length (firstn (S n) (skipn p sq)) = S n.
Proof.
  split; [reflexivity|]. rewrite group_by_n_windows, windows_succ_positions.
  split; [rewrite length_map, length_seq; reflexivity|].
  intros p Hp. split.
  - rewrite nth_error_map, nth_error_seq.
    destruct (Nat.ltb_spec p (length sq - n)); [reflexivity|lia].
  - change (length (window_at sq (S n) p) = S n). apply window_length; lia.
Qed.

(** X2. A tuple is a key of the table built from a sequence exactly when
    it stands somewhere in the sequence as a block of [k] items followed
    by at least one more item. *)
Theorem X2_key_iff_occurs (history : list T) (k : nat) (c : list T) :
  In c (table_keys (calculate_frequencies history k))
  <-> exists p, p < length history - k /\ firstn k (skipn p history) = c.
Proof.
  rewrite calculate_frequencies_windows. split.
  - intros Hin. apply keys_fold_record_tuple in Hin.
    destruct Hin as [[]|[x Hx]]. apply in_windows in Hx.
    destruct Hx as (p & Hp & Hw). exists p. split; [exact Hp|].
    exact (window_prefix history k p c x Hp Hw).
  - intros (p & Hp & Hw). destruct (window_succ history k p Hp) as [x Hx].
    apply (keys_fold_intro _ _ _ x). apply in_windows. exists p.
    split; [exact Hp|]. rewrite Hx. unfold window_at. rewrite Hw.
    reflexivity.
Qed.

Lemma followed_nonempty (history : list T) (k : nat) (c : list T) (x : T) :
  In (c ++ [x]) (windows history (S k)) ->
  1 <= length (followed_positions history k c x).
Proof.
  intros Hin. apply in_windows in Hin. destruct Hin as (p & Hp & Hw).
  assert (H : In p (followed_positions history k c x))
    by (apply followed_positions_in; split; assumption).
  destruct (followed_positions history k c x); [destruct H|simpl; lia].
Qed.

Lemma successor_key_in_windows (history : list T) (k : nat) (c : list T)
  (x : T) :
  In x (counter_keys (successors (calculate_frequencies history k) c))
  <-> In (c ++ [x]) (windows history (S k)).
Proof.
  rewrite calculate_frequencies_windows, keys_fold_in. simpl. tauto.
Qed.

Lemma key_has_window (history : list T) (k : nat) (c : list T) :
  In c (table_keys (calculate_frequencies history k)) ->
  exists x, In (c ++ [x]) (windows history (S k)).
Proof.
  rewrite calculate_frequencies_windows. intros Hin.
  apply keys_fold_record_tuple in Hin. destruct Hin as [[]|Hx]. exact Hx.
Qed.

(** X3. In a built table no successor map is empty and no count is zero:
    every key has at least one successor and every recorded successor has
    a count of at least 1. *)
Theorem X3_counts_positive (history : list T) (k : nat) (c : list T) :
  (In c (table_keys (calculate_frequencies history k)) ->
   successors (calculate_frequencies history k) c <> [])
  /\ forall x,
       In x (counter_keys (successors (calculate_frequencies history k) c)) ->
       1 <= counter_get (successors (calculate_frequencies history k) c) x.
Proof.
  split.
  - intros Hin E. apply key_has_window in Hin.
    destruct Hin as (x & Hx). apply successor_key_in_windows in Hx.
    rewrite E in Hx. destruct Hx.
  - intros x Hx. rewrite count_calculate_frequencies.
    apply followed_nonempty. apply successor_key_in_windows. exact Hx.
Qed.

End BuilderMore.

Section PredictorMore.

Context {T : Type} {T_eq_dec : Hashable T}.

Lemma grand_total_app (t1 t2 : @Table T) :
  grand_total (t1 ++ t2) = grand_total t1 + grand_total t2.
Proof.
  unfold grand_total. rewrite map_app, list_sum_app. reflexivity.
Qed.

Lemma grand_total_cons (k : list T) (c : Counter) (t : @Table T) :
  grand_total ((k, c) :: t) = total c + grand_total t.
Proof. reflexivity. Qed.

Lemma grand_total_set (t : @Table T) (k : list T) (c0 v : Counter) :
  table_find t k = Some c0 ->
  grand_total (table_set t k v) + total c0 = grand_total t + total v.
Proof.
  induction t as [|[k0 c] t IH]; cbn [table_find table_set]; [discriminate|].
  destruct (tuple_eq_dec k0 k) as [->|Hk]; intros Hf;
    rewrite !grand_total_cons.
  - injection Hf as <-.
    generalize (total v), (total c), (grand_total t). intros; lia.
  - specialize (IH Hf). revert IH.
    generalize (total v), (total c), (total c0), (grand_total t),
      (grand_total (table_set t k v)).
    intros; lia.
Qed.

Lemma cancel_counted (a b c : nat) : a + c = b + (c + 1) -> a = b + 1.
Proof. lia. Qed.

Lemma cancel_counted_new (a b c e : nat) :
  e = 0 -> a + c = b + e + (c + 1) -> a = b + 1.
Proof. lia. Qed.

Lemma grand_total_record (t : @Table T) (pre : list T) (x : T) :
  grand_total (record t pre x) = grand_total t + 1.
Proof.
  unfold record, table_getitem.
  destruct (table_find t pre) as [count|] eqn:Hf.
  - pose proof (grand_total_set t pre count (counter_incr count x) Hf) as H.
    rewrite total_counter_incr in H.
    exact (cancel_counted _ _ _ H).
  - assert (Hf' : table_find (t ++ [(pre, [])]) pre = Some []).
    { rewrite table_find_app_new, Hf.
      destruct (tuple_eq_dec pre pre); [reflexivity|contradiction]. }
    pose proof (grand_total_set _ pre [] (counter_incr [] x) Hf') as H.
    rewrite total_counter_incr, grand_total_app in H.
    exact (cancel_counted_new _ _ _ _ eq_refl H).
Qed.

Lemma list_sum_ones {X : Type} (l : list X) :
  list_sum (map (fun _ => 1) l) = length l.
Proof.
  induction l as [|a l IH]; [reflexivity|].
  cbn [map length]. change (S (list_sum (map (fun _ : X => 1) l)) = S (length l)).
  f_equal. exact IH.
Qed.

(** X4. The counts of a built table add up to the number of blocks of
    [k+1] items of the sequence, [len - k] (0 when the sequence is too
    short): every block is recorded exactly once. *)
Theorem X4_grand_total (history : list T) (k : nat) :
  grand_total (calculate_frequencies history k) = length history - k.
Proof.
  rewrite calculate_frequencies_windows.
  rewrite (fold_left_additive record_tuple grand_total
             (fun tup => match unpack tup with Some _ => 1 | None => 0 end)).
  - rewrite windows_succ_positions, map_map.
    rewrite map_ext_in with (g := fun _ => 1).
    + rewrite list_sum_ones, length_seq. reflexivity.
    + intros p Hp. apply in_seq in Hp.
      destruct (window_succ history k p) as [x Hx]; [lia|].
      rewrite Hx, unpack_snoc. reflexivity.
  - intros t tup. unfold record_tuple.
    destruct (unpack tup) as [[pre x]|]; [apply grand_total_record|lia].
Qed.

Lemma in_firstn_in {X : Type} (n : nat) (l : list X) (x : X) :
  In x (firstn n l) -> In x l.
Proof.
  intros H. rewrite <- (firstn_skipn n l). apply in_or_app. left. exact H.
Qed.

Lemma in_skipn_in {X : Type} (n : nat) (l : list X) (x : X) :
  In x (skipn n l) -> In x l.
Proof.
  intros H. rewrite <- (firstn_skipn n l). apply in_or_app. right. exact H.
Qed.

Lemma in_window_in (sq : list T) (n p : nat) (x : T) :
  In x (window_at sq n p) -> In x sq.
Proof.
  unfold window_at. intros H. apply in_firstn_in in H.
  eapply in_skipn_in; eauto.
Qed.

Lemma successor_in_history (history : list T) (k : nat) (c : list T)
  (x : T) :
  In x (counter_keys (successors (calculate_frequencies history k) c)) ->
  In x history.
Proof.
  intros H. apply successor_key_in_windows in H. apply in_windows in H.
  destruct H as (p & _ & Hw).
  apply (in_window_in history (S k) p). rewrite Hw.
  apply in_or_app. right. left. reflexivity.
Qed.

Lemma slice_last_incl (history : list T) (k : nat) (x : T) :
  In x (slice_last history k) -> In x history.
Proof.
  destruct k; cbn [slice_last]; [auto|]. apply in_skipn_in.
Qed.

Lemma predict_outcomes (t : @Table T) (c : list T) (w : @World T) :
  (successors t c = [] -> c = [] ->
   fst (fst (predict t c w)) = Raise IndexError)
  /\ (successors t c <> [] ->
      exists x, fst (fst (predict t c w)) = Ret x
                /\ In x (counter_keys (successors t c)))
  /\ (successors t c = [] -> c <> [] ->
      exists x, fst (fst (predict t c w)) = Ret x /\ In x c).
Proof.
  split; [|split].
  - intros Hs ->. rewrite predict_fallback by exact Hs. reflexivity.
  - intros Hne.
    destruct (counter_keys (successors t c)) as [|x rest] eqn:HK;
      [apply counter_keys_nil in HK; contradiction|].
    rewrite (predict_max t c w x rest HK). eexists. split; [reflexivity|].
    apply max_from_in.
  - intros Hs Hc. rewrite predict_fallback by exact Hs.
    destruct (random_choice_nth c (rng w) Hc) as (x & Hx & Hnth).
    rewrite Hx. exists x. split; [reflexivity|].
    eapply nth_error_In; eauto.
Qed.

(** X5. [predict] on any table raises (the [IndexError] of
    [random.choice]) exactly when the context has no recorded successor
    and [recently_seen] is empty; otherwise it returns a recorded
    successor of the context or, failing any, an item of
    [recently_seen]. *)
Theorem X5_predict_outcomes (t : @Table T) (c : list T) (w : @World T) :
  (successors t c = [] -> c = [] ->
   fst (fst (predict t c w)) = Raise IndexError)
  /\ (successors t c <> [] ->
      exists x, fst (fst (predict t c w)) = Ret x
                /\ In x (counter_keys (successors t c)))
  /\ (successors t c = [] -> c <> [] ->
      exists x, fst (fst (predict t c w)) = Ret x /\ In x c).
Proof. apply predict_outcomes. Qed.

Lemma predict_from_history_fst (history : list T) (k : nat) (w : @World T) :
  fst (predict_from_history history k w)
  = fst (fst (predict (calculate_frequencies history k)
                      (slice_last history k) w)).
Proof.
  unfold predict_from_history.
  destruct (predict (calculate_frequencies history k) (slice_last history k) w)
    as [[r t] w']. reflexivity.
Qed.

Lemma slice_last_nonempty (history : list T) (k : nat) :
  history <> [] -> slice_last history k <> [].
Proof.
  intros Hh. destruct k as [|k]; [exact Hh|].
  rewrite slice_last_last_k by discriminate.
  apply last_k_nonempty; [exact Hh|discriminate].
Qed.

(** X6. [predict_from_history] raises exactly on the empty history; on a
    non-empty history it returns, for every order and every outcome of
    the random source, an item that occurs in the history. *)
Theorem X6_predict_from_history_total (history : list T) (k : nat)
  (w : @World T) :
  (history = [] -> fst (predict_from_history history k w) = Raise IndexError)
  /\ (history <> [] ->
      exists x, fst (predict_from_history history k w) = Ret x
                /\ In x history).
Proof.
  rewrite predict_from_history_fst.
  pose proof (predict_outcomes (calculate_frequencies history k)
                (slice_last history k) w) as (H1 & H2 & H3).
  split.
  - intros ->. apply H1; destruct k; reflexivity.
  - intros Hh.
    destruct (successors (calculate_frequencies history k)
                         (slice_last history k)) as [|e l] eqn:Hs.
    + destruct (H3 eq_refl (slice_last_nonempty history k Hh))
        as (x & Hx & Hin).
      exists x. split; [exact Hx|]. eapply slice_last_incl; eauto.
    + destruct H2 as (x & Hx & Hin); [discriminate|].
      exists x. split; [exact Hx|].
      eapply successor_in_history. rewrite Hs. exact Hin.
Qed.

End PredictorMore.

Section EdgesMore.

Context {T : Type} {T_eq_dec : Hashable T}.

Lemma table_find_key (t : @Table T) (c : list T) (count : Counter) :
  table_find t c = Some count -> In c (table_keys t).
Proof.
  induction t as [|[k0 c0] t IH]; cbn [table_find]; [discriminate|].
  destruct (tuple_eq_dec k0 c) as [->|Hk]; intros H.
  - left. reflexivity.
  - right. apply IH. exact H.
Qed.

Lemma successors_absent (t : @Table T) (c : list T) :
  ~ In c (table_keys t) -> successors t c = [].
Proof.
  intros Hn. unfold successors.
  destruct (table_find t c) as [count|] eqn:Hf; [|reflexivity].
  exfalso. apply Hn. eapply table_find_key; eauto.
Qed.

Lemma slice_last_whole (history : list T) (k : nat) :
  k = 0 \/ length history <= k -> slice_last history k = history.
Proof.
  intros [->|Hk]; [reflexivity|]. destruct k as [|k]; [reflexivity|].
  cbn [slice_last]. replace (length history - S k) with 0 by lia.
  reflexivity.
Qed.

(** X7. When the order is 0, or is at least the length of the history,
    [predict_from_history] on a non-empty history finds no recorded
    successor (it looks the whole history up as the context) and returns
    the item of the history at the index drawn by [random.choice], after
    printing its message. *)
Theorem X7_order_edges_fall_back (history : list T) (k : nat)
  (w : @World T) :
  history <> [] ->
  k = 0 \/ length history <= k ->
  exists x,
    predict_from_history history k w
    = (Ret x,
       with_rng (snd (randbelow (length history) (rng w))) (print Err w))
    /\ nth_error history (fst (randbelow (length history) (rng w))) = Some x.
Proof.
  intros Hh Hk.
  assert (Hs : successors (calculate_frequencies history k) history = []).
  { apply successors_absent. intros Hin.
    pose proof (keys_calculate_frequencies history k history Hin) as Hlen.
    apply key_has_window in Hin. destruct Hin as (y & Hy).
    apply in_windows in Hy. destruct Hy as (p & Hp & _).
    destruct history; [congruence|]. cbn [length] in *. lia. }
  destruct (random_choice_nth history (rng w) Hh) as (x & Hx & Hnth).
  exists x. split; [|exact Hnth].
  unfold predict_from_history. rewrite slice_last_whole by exact Hk.
  rewrite predict_fallback by exact Hs. rewrite Hx. reflexivity.
Qed.

End EdgesMore.

(** * More of the stream *)

Section StreamMore.

Context {T : Type} {T_eq_dec : Hashable T}.

Ltac no_yield :=
  match goal with
  | H : seed _ _ = Yield _ _ |- _ =>
      exfalso; exact (seed_never_yields _ _ _ _ H)
  | H : try_choices _ _ _ = Yield _ _ |- _ =>
      exfalso; exact (try_choices_never_yields _ _ _ _ _ H)
  end.

Lemma last_k_nil (k : nat) : last_k (@nil T) k = [].
Proof. unfold last_k. apply skipn_nil. Qed.

Lemma tracking_generate (table : @Table T) (k : nat) (mixup : option Z)
  (w : @World T) :
  tracking k (generate table k mixup w).
Proof. unfold tracking, generate. cbn. auto. Qed.

Lemma tracking_step (k : nat) (s : @Gen T) :
  tracking k s ->
  match step s with
  | Go s1 => tracking k s1
  | Yield _ s1 => tracking k s1
  | Throw _ _ => True
  end.
Proof.
  intros (Hk & Hat). unfold step.
  destruct (at_ s) as [|l rest|l x rest| |] eqn:Hp.
  - match goal with |- context [seed ?l ?s0] =>
      destruct (seed l s0) as [s1|y s1|e s1] eqn:Hs;
        [|no_yield|exact I]
    end.
    apply seed_go in Hs. destruct Hs as (c & g & _ & ->).
    unfold tracking. cbn. rewrite Hat. split; [exact Hk|].
    symmetry. apply skipn_nil.
  - destruct l, rest as [|item rest];
      try (unfold tracking; cbn; split; [exact Hk|];
           first [ exact Hat
                 | rewrite Hat, deque_append_last_k by apply last_k_length;
                   apply last_k_app ]; fail).
    destruct (try_choices options weights s) as [s1|y s1|e s1] eqn:Hs;
      [|no_yield|exact I].
    apply try_choices_go in Hs.
    destruct Hs as [(items & g & ->)|(c & g & _ & ->)];
      unfold tracking; cbn; auto.
  - unfold tracking. cbn. rewrite Hk. auto.
  - destruct (table_getitem (frequencies s) (recent s)) as [count t'].
    destruct (mixup_due (mixup_period s) (i s)).
    + match goal with |- context [seed ?l ?s0] =>
        destruct (seed l s0) as [s1|y s1|e s1] eqn:Hs;
          [|no_yield|exact I]
      end.
      apply seed_go in Hs. destruct Hs as (c & g & _ & ->).
      unfold tracking. cbn. auto.
    + match goal with |- context [try_choices ?o ?w ?s0] =>
        destruct (try_choices o w s0) as [s1|y s1|e s1] eqn:Hs;
          [|no_yield|exact I]
      end.
      apply try_choices_go in Hs.
      destruct Hs as [(items & g & ->)|(c & g & _ & ->)];
        unfold tracking; cbn; auto.
  - exact I.
Qed.

Lemma tracking_steps (k : nat) (s s' : @Gen T) (out : list T) :
  steps s out s' -> tracking k s -> tracking k s'.
Proof.
  induction 1 as [s|s s1 s2 out Hs _ IH|s x s1 s2 out Hs _ IH]; intros Hc;
    [exact Hc| |]; apply IH;
    pose proof (tracking_step k s Hc) as H; rewrite Hs in H; exact H.
Qed.

(** X8. In every stream, whatever the table, the mixup period and the
    random outcomes, the buffer of recent items holds the last [k] items
    yielded so far: exactly them whenever the frame is not suspended at a
    [yield], and them once the pending item is appended when it is. *)
Theorem X8_buffer_tracks_output (table : @Table T) (k : nat)
  (mixup : option Z) (w : @World T) (out : list T) (s : @Gen T) :
  steps (generate table k mixup w) out s ->
  match at_ s with
  | Entry => out = []
  | Yielded _ item _ => deque_append k (recent s) item = last_k out k
  | Closed => True
  | _ => recent s = last_k out k
  end.
Proof.
  intros Hreach.
  pose proof (tracking_steps k _ _ _ Hreach
                (tracking_generate table k mixup w)) as (_ & Hat).
  pose proof (steps_emitted _ _ _ Hreach) as Hout. cbn in Hout.
  rewrite Hout in Hat. exact Hat.
Qed.

(** *** What a stream can yield *)

Lemma table_getitem_fst (t : @Table T) (c : list T) :
  fst (table_getitem t c) = successors t c.
Proof.
  unfold table_getitem, successors. destruct (table_find t c); reflexivity.
Qed.

Lemma key_symbols (t : @Table T) (c : list T) (x : T) :
  In c (table_keys t) -> In x c -> In x (symbols t).
Proof.
  intros Hc Hx. unfold symbols. apply in_or_app. left.
  apply in_concat. exists c. split; assumption.
Qed.

Lemma successors_symbols (t : @Table T) (c : list T) (x : T) :
  In x (counter_keys (successors t c)) -> In x (symbols t).
Proof.
  intros Hx. unfold symbols. apply in_or_app. right.
  apply in_concat. exists (counter_keys (successors t c)).
  split; [|exact Hx]. apply in_map_iff. exists c. split; [reflexivity|].
  unfold successors in Hx.
  destruct (table_find t c) as [count|] eqn:Hf; [|destruct Hx].
  eapply table_find_key; eauto.
Qed.

Lemma pick_weighted_in (options : list T) (weights : list nat) (d : nat)
  (dflt : T) :
  pick_weighted options weights d dflt = dflt
  \/ In (pick_weighted options weights d dflt) options.
Proof.
  revert weights d dflt; induction options as [|x options IH];
    intros weights d dflt; cbn [pick_weighted]; [auto|].
  destruct weights as [|w0 weights]; [auto|].
  destruct (d <? w0); [right; left; reflexivity|].
  destruct (IH weights (d - w0) x) as [->|Hin]; right; [left|right]; auto.
Qed.

Lemma random_choices_in (options : list T) (weights : list nat)
  (g g' : Rng) (items : list T) :
  random_choices options weights g = (Ret items, g') ->
  exists x, items = [x] /\ In x options.
Proof.
  unfold random_choices. destruct options as [|x0 options]; [discriminate|].
  destruct (list_sum weights =? 0); [discriminate|].
  destruct (randbelow (list_sum weights) g) as [d g1]. intros H.
  injection H as Hi _.
  exists (pick_weighted (x0 :: options) weights d x0).
  split; [symmetry; exact Hi|].
  destruct (pick_weighted_in (x0 :: options) weights d x0) as [E|Hin];
    [rewrite E; left; reflexivity|exact Hin].
Qed.

Lemma try_choices_sampled (options : list T) (weights : list nat)
  (s s1 : @Gen T) :
  try_choices options weights s = Go s1 ->
  (exists x g,
      In x options
      /\ s1 = goto (For LChoices [x]) (with_world (with_rng g (world s)) s))
  \/ (exists c g,
        In c (known_subsequences s)
        /\ s1 = goto (For LRecovery c)
                    (with_world
                       (with_rng g (print (IDK (recent s)) (world s))) s)).
Proof.
  unfold try_choices.
  destruct (random_choices options weights (rng (world s)))
    as [[items|e] g] eqn:Hc; intros H.
  - left. injection H as <-. apply random_choices_in in Hc.
    destruct Hc as (x & -> & Hin). exists x, g. split; [exact Hin|reflexivity].
  - destruct e; try discriminate. right.
    apply seed_go in H. destruct H as (c & g' & Hin & ->).
    exists c, g'. split; [exact Hin|reflexivity].
Qed.

Lemma within_generate (table : @Table T) (k : nat) (mixup : option Z)
  (w : @World T) :
  within table (generate table k mixup w).
Proof.
  unfold within, generate. cbn. repeat split; auto; intros x [].
Qed.

Lemma within_step (t : @Table T) (s : @Gen T) :
  within t s ->
  match step s with
  | Go s1 => within t s1
  | Yield _ s1 => within t s1
  | Throw _ _ => True
  end.
Proof.
  intros (HE & HP & HS & HK). unfold pending in HP. unfold step.
  destruct (at_ s) as [|l rest|l x rest| |] eqn:Hp.
  - match goal with |- context [seed ?l ?s0] =>
      destruct (seed l s0) as [s1|y s1|e s1] eqn:Hs; [|no_yield|exact I]
    end.
    apply seed_go in Hs. destruct Hs as (c & g & Hin & ->). cbn in Hin.
    unfold within, pending. cbn. rewrite HK in *.
    repeat split; auto. intros x Hx. rewrite app_nil_r in Hx.
    eapply key_symbols; eauto.
  - destruct rest as [|item rest].
    + destruct l as [|options weights| |];
        try (unfold within, pending; cbn; repeat split; auto;
             intros x []; fail).
      destruct (try_choices options weights s) as [s1|y s1|e s1] eqn:Hs;
        [|no_yield|exact I].
      apply try_choices_sampled in Hs.
      destruct Hs as [(x & g & Hin & ->)|(c & g & Hin & ->)];
        unfold within, pending; cbn; repeat split; auto.
      * intros y [<-|[]]. apply HP. exact Hin.
      * intros y Hy. rewrite app_nil_r in Hy. rewrite HK in Hin.
        eapply key_symbols; eauto.
    + assert (Hnew : within t (goto (Yielded l item rest)
                                  (with_emitted (emitted s ++ [item]) s))).
      { unfold within, pending. cbn. repeat split; auto.
        intros x Hx. apply in_app_or in Hx.
        destruct Hx as [Hx|[<-|[]]]; [auto|]. apply HP. left. reflexivity. }
      destruct l; exact Hnew.
  - unfold within, pending. cbn. repeat split; auto.
    intros y Hy. apply HP. right. exact Hy.
  - pose proof (table_getitem_fst (frequencies s) (recent s)) as Hfst.
    pose proof (table_getitem_stable (frequencies s) (recent s))
      as [Hst _].
    destruct (table_getitem (frequencies s) (recent s)) as [count t'].
    cbn [fst snd] in Hfst, Hst.
    assert (Hopt : forall x, In x (counter_keys count) -> In x (symbols t)).
    { intros x Hx. rewrite Hfst, HS in Hx.
      eapply successors_symbols; eauto. }
    assert (HS' : forall c, successors t' c = successors t c)
      by (intros c; rewrite Hst; apply HS).
    destruct (mixup_due (mixup_period s) (i s)).
    + match goal with |- context [seed ?l ?s0] =>
        destruct (seed l s0) as [s1|y s1|e s1] eqn:Hs; [|no_yield|exact I]
      end.
      apply seed_go in Hs. destruct Hs as (c & g & Hin & ->). cbn in Hin.
      unfold within, pending. cbn. repeat split; auto.
      intros y Hy. apply in_app_or in Hy. destruct Hy as [Hy|Hy]; [|auto].
      rewrite HK in Hin. eapply key_symbols; eauto.
    + match goal with |- context [try_choices ?o ?w ?s0] =>
        destruct (try_choices o w s0) as [s1|y s1|e s1] eqn:Hs;
          [|no_yield|exact I]
      end.
      apply try_choices_sampled in Hs.
      destruct Hs as [(x & g & Hin & ->)|(c & g & Hin & ->)];
        unfold within, pending; cbn; repeat split; auto.
      * intros y [<-|[]]. auto.
      * intros y Hy. rewrite app_nil_r in Hy. cbn in Hin. rewrite HK in Hin.
        eapply key_symbols; eauto.
  - exact I.
Qed.

Lemma within_steps (t : @Table T) (s s' : @Gen T) (out : list T) :
  steps s out s' -> within t s -> within t s'.
Proof.
  induction 1 as [s|s s1 s2 out Hs _ IH|s x s1 s2 out Hs _ IH]; intros Hc;
    [exact Hc| |]; apply IH;
    pose proof (within_step t s Hc) as H; rewrite Hs in H; exact H.
Qed.

Lemma symbols_built (source : list T) (k : nat) (x : T) :
  In x (symbols (calculate_frequencies source k)) -> In x source.
Proof.
  unfold symbols. intros H. apply in_app_or in H. destruct H as [H|H];
    apply in_concat in H; destruct H as (l & Hl & Hx).
  - apply key_has_window in Hl. destruct Hl as (y & Hy).
    apply in_windows in Hy. destruct Hy as (p & _ & Hw).
    apply (in_window_in source (S k) p). rewrite Hw.
    apply in_or_app. left. exact Hx.
  - apply in_map_iff in Hl. destruct Hl as (c & <- & _).
    eapply successor_in_history; eauto.
Qed.

Lemma take_steps_any (fuel n : nat) (s : @Gen T) :
  exists s', steps s (fst (take fuel n s)) s'.
Proof.
  revert s; induction n as [|n IH]; intros s; cbn [take].
  - exists s. constructor.
  - destruct (next fuel s) as [x s1|e s1|] eqn:Hn;
      try (exists s; constructor).
    destruct (IH s1) as (s' & Hs'). destruct (take fuel n s1) as [ys r].
    exists s'. cbn [fst] in *.
    apply (steps_app s s1 s' [x] ys); [eapply next_steps; eauto|exact Hs'].
Qed.

(** X9. A stream yields only symbols of its table (items of its keys or
    recorded successors); the stream of [generate_random_stream] yields
    only items of its source.  This holds for every order, mixup period
    and random outcome, also through re-seeds and recoveries. *)
Theorem X9_yields_only_known_symbols (k : nat) (mixup : option Z)
  (w : @World T) (fuel n : nat) :
  (forall (table : @Table T) (x : T),
      In x (fst (take fuel n (generate table k mixup w))) ->
      In x (symbols table))
  /\ (forall (source : list T) (x : T),
        In x (fst (take fuel n (generate_random_stream source k mixup w))) ->
        In x source).
Proof.
  assert (H : forall (table : @Table T) (x : T),
             In x (fst (take fuel n (generate table k mixup w))) ->
             In x (symbols table)).
  { intros table x Hx.
    destruct (take_steps_any fuel n (generate table k mixup w))
      as (s' & Hs').
    pose proof (within_steps table _ _ _ Hs'
                  (within_generate table k mixup w)) as (HE & _).
    apply HE. rewrite (steps_emitted _ _ _ Hs'). exact Hx. }
  split; [exact H|].
  intros source x Hx. apply (symbols_built source k). apply H. exact Hx.
Qed.

(** X10. Without a mixup period, every item the stream of
    [generate_random_stream] samples follows, somewhere in the source,
    the [k] items yielded just before it: the block made of the last [k]
    items of the output and the sampled item is a block of the source. *)
Theorem X10_sampled_blocks_occur_in_source (source : list T) (k : nat)
  (mixup : option Z) (w : @World T) (out : list T) (s s1 : @Gen T)
  (items : list T) :
  mixup_due mixup 0 = false ->
  steps (generate_random_stream source k mixup w) out s ->
  enters s LChoices items s1 ->
  exists x p,
    items = [x]
    /\ p < length source - k
    /\ firstn (S k) (skipn p source) = last_k out k ++ [x].
Proof.
  intros Hoff Hreach Hent. unfold generate_random_stream in Hreach.
  set (table := calculate_frequencies source k) in *.
  destruct (no_mixup_context_continuity table k mixup w out s s1 items
              Hoff Hreach Hent) as (Hctx & _).
  pose proof (continuous_steps mixup k _ _ _ Hoff Hreach
                (continuous_generate table k mixup w))
    as (Hi & Hmp & _ & Hat).
  pose proof (within_steps table _ _ _ Hreach
                (within_generate table k mixup w)) as (_ & _ & HS & _).
  destruct Hent as (Hsus & Hs & Hat1).
  unfold suspended in Hsus. unfold step in Hs.
  assert (Hx : exists x,
             items = [x]
             /\ In x (counter_keys (successors table (context s1)))).
  { destruct (at_ s) as [|l rest|l y rest| |] eqn:Hp; try discriminate.
    - apply seed_go in Hs. destruct Hs as (c & g & _ & ->). discriminate.
    - destruct Hat as [_ Hl].
      destruct l, rest as [|item rest]; try discriminate;
        injection Hs as <-; discriminate.
    - rewrite Hmp, Hi, Hoff in Hs.
      pose proof (table_getitem_fst (frequencies s) (recent s)) as Hfst.
      destruct (table_getitem (frequencies s) (recent s)) as [count t'].
      cbn [fst] in Hfst.
      apply try_choices_sampled in Hs.
      destruct Hs as [(x & g & Hin & ->)|(c & g & _ & ->)]; [|discriminate].
      cbn in Hat1. injection Hat1 as <-. exists x. split; [reflexivity|].
      cbn. rewrite <- HS, <- Hfst. exact Hin. }
  destruct Hx as (x & -> & Hin). rewrite Hctx in Hin.
  apply successor_key_in_windows in Hin. apply in_windows in Hin.
  destruct Hin as (p & Hp & Hw). exists x, p. auto.
Qed.

(** *** A stream on a good table never stops *)

Lemma random_choices_total (options : list T) (weights : list nat)
  (g : Rng) :
  options <> [] -> list_sum weights <> 0 ->
  exists x g', random_choices options weights g = (Ret [x], g').
Proof.
  intros Ho Hw. unfold random_choices.
  destruct options as [|x0 options]; [congruence|].
  apply Nat.eqb_neq in Hw. rewrite Hw.
  destruct (randbelow (list_sum weights) g) as [d g'].
  eexists. eexists. reflexivity.
Qed.

Lemma key_nonempty (t : @Table T) (k : nat) (c : list T) :
  good_table t k -> k <> 0 -> In c (table_keys t) -> c <> [].
Proof.
  intros (_ & Hlen & _) Hk Hin E. apply Hlen in Hin. subst c.
  cbn in Hin. congruence.
Qed.

Lemma try_choices_progress (t : @Table T) (k : nat) (options : list T)
  (weights : list nat) (s : @Gen T) :
  good_table t k ->
  known_subsequences s = table_keys t ->
  sampled_from t k (LMixup options weights) ->
  exists s1,
    try_choices options weights s = Go s1
    /\ ((exists x g,
            s1 = goto (For LChoices [x])
                      (with_world (with_rng g (world s)) s))
        \/ (exists c g,
              c <> []
              /\ s1 = goto (For LRecovery c)
                          (with_world
                             (with_rng g (print (IDK (recent s)) (world s)))
                             s))).
Proof.
  intros Hgood Hkn (c & Ho & Hw & Hk0).
  pose proof Hgood as (Hne & Hlen & Hpos & _).
  unfold try_choices.
  destruct options as [|x0 options'] eqn:Hopt.
  - cbn [random_choices].
    match goal with |- context [seed ?l ?s0] =>
      destruct (seed_never_raises l s0) as (s1 & Hs1);
        [cbn; rewrite Hkn; exact Hne|];
      pose proof (seed_go l s0 s1 Hs1) as (c' & g & Hin & Heq)
    end.
    exists s1. split; [exact Hs1|]. right. exists c', g.
    split; [|exact Heq]. cbn in Hin. rewrite Hkn in Hin.
    apply (key_nonempty t k c' Hgood); [|exact Hin].
    intros Hk. apply Hk0 in Hk. congruence.
  - destruct (random_choices_total (x0 :: options') weights
                (rng (world s))) as (x & g' & Hc); [discriminate| |].
    + rewrite Hw, Ho. apply Hpos. intros E. rewrite E in Ho. discriminate.
    + rewrite Hc. eexists. split; [reflexivity|]. left. eauto.
Qed.

Lemma alive_generate (t : @Table T) (k : nat) (mixup : option Z)
  (w : @World T) :
  alive t k (generate t k mixup w).
Proof. unfold alive, generate. cbn. auto with arith. Qed.

Lemma alive_step (t : @Table T) (k : nat) (s : @Gen T) :
  good_table t k ->
  alive t k s ->
  (exists x s1, step s = Yield x s1 /\ alive t k s1)
  \/ (exists s1, step s = Go s1 /\ alive t k s1 /\ rank s1 < rank s).
Proof.
  intros Hgood (Hk & Hr & HS & Hat).
  pose proof Hgood as (Hne & Hlen & Hpos & Hzero).
  unfold step, rank.
  destruct (at_ s) as [|l rest|l x rest| |] eqn:Hp.
  - right.
    match goal with |- context [seed ?l ?s0] =>
      destruct (seed_never_raises l s0) as (s1 & Hs1);
        [cbn; rewrite Hat; exact Hne|];
      pose proof (seed_go l s0 s1 Hs1) as (c & g & Hin & Heq)
    end.
    exists s1. split; [exact Hs1|]. subst s1. cbn in Hin.
    split; [|cbn; destruct c; lia].
    unfold alive. cbn. rewrite Hat. auto with arith.
  - destruct Hat as [Hkn Hl]. destruct rest as [|item rest].
    + right. destruct l as [|options weights| |].
      * eexists. split; [reflexivity|]. split; [|cbn; lia].
        unfold alive. cbn. auto.
      * destruct (try_choices_progress t k options weights s Hgood Hkn Hl)
          as (s1 & Hs1 & [(x0 & g & ->)|(c & g & Hc & ->)]);
          eexists; (split; [exact Hs1|]);
          (split; [unfold alive; cbn; auto|cbn]);
          [lia|destruct c; [congruence|lia]].
      * eexists. split; [reflexivity|]. split; [|cbn; lia].
        unfold alive. cbn. auto.
      * eexists. split; [reflexivity|]. split; [|cbn; lia].
        unfold alive. cbn. auto.
    + left. exists item. eexists. split; [destruct l; reflexivity|].
      unfold alive. cbn. auto.
  - right. destruct Hat as [Hkn Hl]. eexists. split; [reflexivity|].
    split; [|cbn; destruct l, rest; lia].
    unfold alive. cbn. rewrite Hk. repeat split; auto.
    apply deque_append_length. exact Hr.
  - right.
    pose proof (table_getitem_fst (frequencies s) (recent s)) as Hfst.
    pose proof (table_getitem_stable (frequencies s) (recent s))
      as [Hst _].
    destruct (table_getitem (frequencies s) (recent s)) as [count t'].
    cbn [fst snd] in Hfst, Hst. rewrite HS in Hfst.
    assert (HS' : forall c, successors t' c = successors t c)
      by (intros c; rewrite Hst; apply HS).
    assert (Hl : sampled_from t k
                   (LMixup (counter_keys count)
                      (map (counter_get count) (counter_keys count)))).
    { exists (recent s). rewrite <- Hfst. repeat split.
      intros Hk0 E. apply counter_keys_nil in E.
      assert (Hrec : recent s = [])
        by (destruct (recent s); [reflexivity|cbn in Hr; lia]).
      rewrite Hfst, Hrec in E. exact (Hzero Hk0 E). }
    destruct (mixup_due (mixup_period s) (i s)).
    + match goal with |- context [seed ?l ?s0] =>
        destruct (seed_never_raises l s0) as (s1 & Hs1);
          [cbn; rewrite Hat; exact Hne|];
        pose proof (seed_go l s0 s1 Hs1) as (c & g & Hin & Heq)
      end.
      exists s1. split; [exact Hs1|]. subst s1.
      split; [unfold alive; cbn; auto|cbn; destruct c; lia].
    + match goal with |- context [try_choices ?o ?w ?s0] =>
        destruct (try_choices_progress t k o w s0 Hgood Hat Hl)
          as (s1 & Hs1 & [(x0 & g & ->)|(c & g & Hc & ->)])
      end;
        eexists; (split; [exact Hs1|]);
        (split; [unfold alive; cbn; auto|cbn]);
        [lia|destruct c; [congruence|lia]].
  - destruct Hat.
Qed.

Lemma alive_next (t : @Table T) (k : nat) (n : nat) (s : @Gen T) :
  good_table t k -> alive t k s -> rank s <= n ->
  exists x s1, next (S n) s = Item x s1 /\ alive t k s1.
Proof.
  intros Hgood. revert s; induction n as [|n IH]; intros s Hal Hrank;
    cbn [next];
    destruct (alive_step t k s Hgood Hal)
      as [(x & s1 & Hs & Hal1)|(s1 & Hs & Hal1 & Hlt)]; rewrite Hs;
    try (exists x, s1; split; [reflexivity|exact Hal1]).
  - lia.
  - apply IH; [exact Hal1|lia].
Qed.

Lemma rank_bound (s : @Gen T) : rank s <= 4.
Proof.
  unfold rank. destruct (at_ s) as [|l rest|l x rest| |]; try lia.
  destruct l, rest; lia.
Qed.

Lemma alive_take (t : @Table T) (k : nat) (fuel n : nat) (s : @Gen T) :
  good_table t k -> alive t k s -> 5 <= fuel ->
  exists xs s', take fuel n s = (xs, Live s') /\ length xs = n
                /\ alive t k s'.
Proof.
  intros Hgood Hal Hfuel. revert s Hal; induction n as [|n IH]; intros s Hal;
    cbn [take].
  - exists [], s. auto.
  - destruct fuel as [|fuel]; [lia|].
    destruct (alive_next t k fuel s Hgood Hal) as (x & s1 & Hn & Hal1);
      [pose proof (rank_bound s); lia|].
    rewrite Hn. destruct (IH s1 Hal1) as (xs & s' & Ht & Hlen & Hal').
    rewrite Ht. exists (x :: xs), s'. cbn. auto.
Qed.

Lemma successor_count_positive (history : list T) (k : nat) (c : list T)
  (x : T) :
  In x (counter_keys (successors (calculate_frequencies history k) c)) ->
  1 <= counter_get (successors (calculate_frequencies history k) c) x.
Proof.
  intros Hx. rewrite count_calculate_frequencies.
  apply followed_nonempty. apply successor_key_in_windows. exact Hx.
Qed.

Lemma good_table_built (source : list T) (k : nat) :
  k < length source -> good_table (calculate_frequencies source k) k.
Proof.
  intros Hlen. split; [|split; [|split]].
  - intros E.
    destruct (window_succ source k 0) as [x Hx]; [lia|].
    assert (Hin : In (window_at source k 0)
                     (table_keys (calculate_frequencies source k))).
    { rewrite calculate_frequencies_windows.
      apply (keys_fold_intro _ _ _ x). apply in_windows.
      exists 0. split; [lia|exact Hx]. }
    rewrite E in Hin. destruct Hin.
  - apply keys_calculate_frequencies.
  - intros c Hne.
    destruct (successors (calculate_frequencies source k) c)
      as [|[x n0] count] eqn:Hs; [congruence|].
    pose proof (successor_count_positive source k c x) as Hpos.
    rewrite Hs in Hpos. specialize (Hpos (or_introl eq_refl)).
    cbn [counter_keys map fst list_sum fold_right]. lia.
  - intros ->. apply order_zero_successors. intros E. subst source.
    cbn in Hlen. lia.
Qed.

(** X11. On a source with more than [k] items the stream of
    [generate_random_stream] never raises, never stops and never hangs:
    for every mixup period and every random outcome, any number of items
    can be pulled, each pull needing at most five moves of the frame. *)
Theorem X11_stream_never_stops (source : list T) (k : nat)
  (mixup : option Z) (w : @World T) (fuel n : nat) :
  k < length source -> 5 <= fuel ->
  exists xs s',
    take fuel n (generate_random_stream source k mixup w) = (xs, Live s')
    /\ length xs = n.
Proof.
  intros Hlen Hfuel.
  destruct (alive_take (calculate_frequencies source k) k fuel n
              (generate_random_stream source k mixup w)
              (good_table_built source k Hlen)
              (alive_generate _ k mixup w) Hfuel)
    as (xs & s' & Ht & Hl & _).
  exists xs, s'. auto.
Qed.

(** *** The mixup period *)

(** X12. With any non-zero [mixup_period], positive or negative, every
    pass of the main loop of a stream on a table with a key re-seeds,
    however many items have been emitted: [i] is never incremented.  The
    re-seeding loop carries the options read before it to the sampling
    that follows it in the same pass. *)
Theorem X12_mixup_reseeds_at_every_pass (table : @Table T) (k : nat) (m : Z)
  (w : @World T) (out : list T) (s : @Gen T) :
  table_keys table <> [] -> m <> 0%Z ->
  steps (generate table k (Some m) w) out s ->
  at_ s = While ->
  i s = 0%Z
  /\ exists c s1,
       enters s
         (LMixup
            (counter_keys (successors (frequencies s) (recent s)))
            (map (counter_get (successors (frequencies s) (recent s)))
               (counter_keys (successors (frequencies s) (recent s)))))
         c s1
       /\ In c (table_keys table).
Proof.
  intros Hne Hm Hreach Hat.
  destruct (steps_keep_i _ _ _ Hreach eq_refl) as [Hi _].
  split; [exact Hi|].
  destruct (mixup_reseeds_at_every_pass table k m w out s Hne Hm Hreach Hat)
    as (c & s1 & Hent).
  rewrite table_getitem_fst in Hent. exists c, s1. split; [exact Hent|].
  pose proof (well_formed_steps table k _ _ _ Hreach
                (well_formed_generate table k (Some m) w)) as (_ & _ & Hkn).
  rewrite Hat in Hkn. destruct Hent as (_ & Hs & Hat1).
  unfold step in Hs. rewrite Hat in Hs.
  destruct (table_getitem (frequencies s) (recent s)) as [count t'].
  destruct (mixup_due (mixup_period s) (i s)).
  - apply seed_go in Hs. destruct Hs as (c' & g & Hin & ->).
    cbn in Hat1, Hin. injection Hat1 as _ _ <-. rewrite <- Hkn. exact Hin.
  - apply try_choices_go in Hs.
    destruct Hs as [(items & g & ->)|(c' & g & _ & ->)]; discriminate.
Qed.

Lemma seed_with_mixup (m : option Z) (l : @loop T) (s : @Gen T) :
  seed l (with_mixup m s) = lift (with_mixup m) (seed l s).
Proof.
  unfold seed. cbn.
  destruct (random_choice (known_subsequences s) (rng (world s)))
    as [[c|e] g]; reflexivity.
Qed.

Lemma try_choices_with_mixup (m : option Z) (options : list T)
  (weights : list nat) (s : @Gen T) :
  try_choices options weights (with_mixup m s)
  = lift (with_mixup m) (try_choices options weights s).
Proof.
  unfold try_choices. cbn.
  destruct (random_choices options weights (rng (world s)))
    as [[items|e] g]; [reflexivity|].
  destruct e; try reflexivity.
  match goal with |- _ = lift _ (seed ?l ?s0) =>
    rewrite <- (seed_with_mixup m l s0)
  end.
  reflexivity.
Qed.

Lemma step_with_mixup (m : option Z) (s : @Gen T) :
  mixup_due m (i s) = false ->
  mixup_due (mixup_period s) (i s) = false ->
  step (with_mixup m s) = lift (with_mixup m) (step s).
Proof.
  intros Hm Hs. unfold step. cbn [at_ with_mixup].
  destruct (at_ s) as [|l rest|l x rest| |] eqn:Hp.
  - match goal with |- _ = lift _ (seed ?l ?s0) =>
      rewrite <- (seed_with_mixup m l s0)
    end.
    reflexivity.
  - destruct l, rest as [|item rest]; try reflexivity.
    apply try_choices_with_mixup.
  - reflexivity.
  - cbn [with_mixup frequencies recent mixup_period i length_of_history
           known_subsequences world emitted context at_].
    rewrite Hm, Hs.
    destruct (table_getitem (frequencies s) (recent s)) as [count t'].
    match goal with |- _ = lift _ (try_choices ?o ?w ?s0) =>
      rewrite <- (try_choices_with_mixup m o w s0)
    end.
    reflexivity.
  - reflexivity.
Qed.

Lemma take_with_mixup_zero (fuel n : nat) (s : @Gen T) :
  i s = 0%Z -> mixup_period s = None ->
  fst (take fuel n (with_mixup (Some 0%Z) s)) = fst (take fuel n s).
Proof.
  assert (Hnext : forall fuel (s : @Gen T),
             i s = 0%Z -> mixup_period s = None ->
             match next fuel s with
             | Item x s1 =>
                 next fuel (with_mixup (Some 0%Z) s)
                 = Item x (with_mixup (Some 0%Z) s1)
                 /\ i s1 = 0%Z /\ mixup_period s1 = None
             | Error e s1 =>
                 next fuel (with_mixup (Some 0%Z) s)
                 = Error e (with_mixup (Some 0%Z) s1)
             | Diverges => next fuel (with_mixup (Some 0%Z) s) = Diverges
             end).
  { clear. induction fuel as [|fuel IH]; intros s Hi Hmp; cbn [next];
      [reflexivity|].
    rewrite (step_with_mixup (Some 0%Z) s)
      by (try rewrite Hmp; reflexivity).
    pose proof (step_keeps_i s Hi) as [Hi1 Hmp1].
    destruct (step s) as [s1|x s1|e s1]; cbn [lift state_of] in *.
    - apply IH; congruence.
    - repeat split; congruence.
    - reflexivity. }
  revert s; induction n as [|n IH]; intros s Hi Hmp; cbn [take];
    [reflexivity|].
  specialize (Hnext fuel s Hi Hmp).
  destruct (next fuel s) as [x s1|e s1|].
  - destruct Hnext as (-> & Hi1 & Hmp1). specialize (IH s1 Hi1 Hmp1).
    destruct (take fuel n s1) as [xs r].
    destruct (take fuel n (with_mixup (Some 0%Z) s1)) as [xs' r'].
    cbn [fst] in *. congruence.
  - rewrite Hnext. reflexivity.
  - rewrite Hnext. reflexivity.
Qed.

(** X13. A [mixup_period] of 0 is the same as none: the test
    [mixup_period and i % mixup_period == 0] stops at the falsy 0, no
    division is made, and pulling from the stream yields the very items
    the stream without a period yields under the same random outcomes. *)
Theorem X13_mixup_zero_is_none (table : @Table T) (k : nat) (w : @World T)
  (fuel n : nat) :
  fst (take fuel n (generate table k (Some 0%Z) w))
  = fst (take fuel n (generate table k None w)).
Proof.
  apply (take_with_mixup_zero fuel n (generate table k None w));
    reflexivity.
Qed.

(** X14. On a source with at most [k] items the stream of
    [generate_random_stream] fails at its first pull: the table has no
    key, [random.choice] raises [IndexError], nothing has been yielded and
    the stream is closed (a further pull raises [StopIteration]). *)
Theorem X14_short_source_fails_at_first_pull (source : list T) (k : nat)
  (mixup : option Z) (w : @World T) (fuel : nat) :
  length source <= k ->
  exists s,
    next (S fuel) (generate_random_stream source k mixup w)
    = Error IndexError s
    /\ emitted s = []
    /\ world s = w
    /\ next (S fuel) s = Error StopIteration s.
Proof.
  intros Hlen. unfold generate_random_stream.
  assert (E : calculate_frequencies source k = []).
  { rewrite calculate_frequencies_windows, windows_succ_positions.
    replace (length source - k) with 0 by lia. reflexivity. }
  rewrite E. eexists. split; [reflexivity|]. cbn. auto.
Qed.

End StreamMore.

(** * The further properties at concrete inputs *)

Lemma X1_group_by_n_blocks_witness :
  nth_error (group_by_n [A; B; A] 2) 1 = Some (firstn 2 (skipn 1 [A; B; A]))
  /\ length (firstn 2 (skipn 1 [A; B; A])) = 2.
Proof.
  destruct (X1_group_by_n_blocks [A; B; A] 1) as (_ & _ & H).
  apply H. simpl. lia.
Defined.

Lemma X3_counts_positive_witness :
  successors (calculate_frequencies [A; B; A] 1) [A] <> []
  /\ 1 <= counter_get (successors (calculate_frequencies [A; B; A] 1) [A]) B.
Proof.
  destruct (X3_counts_positive [A; B; A] 1 [A]) as [H1 H2]. split.
  - apply H1. simpl. auto.
  - apply H2. simpl. auto.
Defined.

Lemma X5_predict_outcomes_witness :
  exists x,
    fst (fst (predict t1 [A] (w0 []))) = Ret x
    /\ In x (counter_keys (successors t1 [A])).
Proof.
  destruct (X5_predict_outcomes t1 [A] (w0 [])) as (_ & H & _).
  apply H. discriminate.
Defined.

Lemma X6_predict_from_history_total_witness :
  exists x,
    fst (predict_from_history [A; B] 1 (w0 [])) = Ret x /\ In x [A; B].
Proof.
  destruct (X6_predict_from_history_total [A; B] 1 (w0 [])) as [_ H].
  apply H. discriminate.
Defined.

Lemma X7_order_edges_fall_back_witness :
  exists x,
    predict_from_history [A; B] 0 (w0 [1])
    = (Ret x,
       with_rng (snd (randbelow (length [A; B]) (rng (w0 [1]))))
                (print Err (w0 [1])))
    /\ nth_error [A; B] (fst (randbelow (length [A; B]) (rng (w0 [1]))))
       = Some x.
Proof.
  apply (X7_order_edges_fall_back [A; B] 0 (w0 [1])).
  - discriminate.
  - left. reflexivity.
Defined.

Lemma X8_buffer_tracks_output_witness :
  deque_append 1
    (recent (state_of (step (state_of (step (generate t1 1 None (w0 [1])))))))
    B
  = last_k [B] 1.
Proof.
  apply (X8_buffer_tracks_output t1 1 None (w0 [1]) [B]
           (state_of (step (state_of (step (generate t1 1 None (w0 [1]))))))).
  eapply steps_go; [reflexivity|].
  eapply steps_yield; [reflexivity|].
  apply steps_refl.
Defined.

Lemma X9_yields_only_known_symbols_witness :
  In B (symbols t1) /\ In B [A; B; A].
Proof.
  destruct (X9_yields_only_known_symbols 1 None (w0 [1]) 5 1) as [H1 H2].
  split.
  - apply H1. simpl. auto.
  - apply (H2 [A; B; A]). simpl. auto.
Defined.

Lemma X10_sampled_blocks_occur_in_source_witness :
  exists x p,
    [A] = [x]
    /\ p < length [A; B; A] - 1
    /\ firstn 2 (skipn p [A; B; A]) = last_k [B] 1 ++ [x].
Proof.
  eapply (X10_sampled_blocks_occur_in_source [A; B; A] 1 None (w0 [1]) [B]).
  - reflexivity.
  - eapply steps_go; [reflexivity|].
    eapply steps_yield; [reflexivity|].
    eapply steps_go; [reflexivity|].
    eapply steps_go; [reflexivity|].
    apply steps_refl.
  - split; [reflexivity|]. split; reflexivity.
Defined.

Lemma X11_stream_never_stops_witness :
  exists xs s',
    take 5 3 (generate_random_stream [A; B; A] 1 None (w0 []))
    = (xs, Live s')
    /\ length xs = 3.
Proof.
  apply (X11_stream_never_stops [A; B; A] 1 None (w0 []) 5 3).
  - simpl. lia.
  - lia.
Defined.

Lemma X12_mixup_reseeds_at_every_pass_witness :
  i (frame While [A] [1; 0] [A] []) = 0%Z
  /\ exists c s1,
       enters (frame While [A] [1; 0] [A] [])
         (LMixup
            (counter_keys (successors t1 [A]))
            (map (counter_get (successors t1 [A]))
               (counter_keys (successors t1 [A]))))
         c s1
       /\ In c (table_keys t1).
Proof.
  apply (X12_mixup_reseeds_at_every_pass t1 1 2%Z (w0 [0; 1; 0]) [A]
           (frame While [A] [1; 0] [A] [])).
  - discriminate.
  - discriminate.
  - eapply steps_go; [reflexivity|].
    eapply steps_yield; [reflexivity|].
    eapply steps_go; [reflexivity|].
    eapply steps_go; [reflexivity|].
    apply steps_refl.
  - reflexivity.
Defined.

Lemma X14_short_source_fails_at_first_pull_witness :
  exists s,
    next 1 (generate_random_stream [A] 1 None (w0 []))
    = Error IndexError s
    /\ emitted s = []
    /\ world s = w0 []
    /\ next 1 s = Error StopIteration s.
Proof.
  apply (X14_short_source_fails_at_first_pull [A] 1 None (w0 []) 0).
  simpl. lia.
Defined.

(** * The adapters of markov_music.py *)

Section MusicMore.

Context {P D : Type} {P_eq_dec : Hashable P} {D_eq_dec : Hashable D}.

Lemma dict_get_set {V : Type} (d : list (P * V)) (k k' : P) (v : V) :
  dict_get (dict_set d k v) k'
  = if eq_dec k k' then Some v else dict_get d k'.
Proof.
  induction d as [|[k0 v0] d IH]; cbn.
  - reflexivity.
  - destruct (eq_dec k0 k) as [E|Hne]; cbn.
    + subst k0. destruct (eq_dec k k'); reflexivity.
    + destruct (eq_dec k0 k'), (eq_dec k k'); try congruence;
        rewrite IH; destruct (eq_dec k k'); congruence.
Qed.

Lemma fold_dict_get {V : Type} (F : P -> V) (l : list P)
  (acc : list (P * V)) (p : P) :
  dict_get (fold_left (fun fr pitch => dict_set fr pitch (F pitch)) l acc) p
  = if in_dec eq_dec p l then Some (F p) else dict_get acc p.
Proof.
  revert acc. induction l as [|a l IH]; intro acc; cbn [fold_left].
  - destruct (in_dec eq_dec p []) as [[]|]; reflexivity.
  - rewrite IH, dict_get_set.
    destruct (in_dec eq_dec p l) as [Hin|Hnin];
      destruct (in_dec eq_dec p (a :: l)) as [Hin'|Hnin'].
    + reflexivity.
    + exfalso. apply Hnin'. right. exact Hin.
    + destruct (eq_dec a p) as [E|Hne]; [subst a; reflexivity|].
      destruct Hin' as [E|Hc]; [congruence|contradiction].
    + destruct (eq_dec a p) as [E|Hne]; [|reflexivity].
      exfalso. apply Hnin'. left. exact E.
Qed.

Lemma rhythm_frequencies_get (notes : list (P * D)) (pitch : P) :
  dict_get (rhythm_frequencies notes) pitch
  = if in_dec eq_dec pitch (map fst notes)
    then Some (counter_of (map snd (filter (has_pitch pitch) notes)))
    else None.
Proof.
  unfold rhythm_frequencies.
  rewrite (fold_dict_get
             (fun pitch =>
                counter_of (map snd (filter (has_pitch pitch) notes)))).
  destruct (in_dec eq_dec pitch (nodup eq_dec (map fst notes))) as [H|H];
    destruct (in_dec eq_dec pitch (map fst notes)) as [H'|H'];
    try reflexivity.
  - exfalso. apply H'. apply nodup_In in H. exact H.
  - exfalso. apply H. apply nodup_In. exact H'.
Qed.

Lemma counter_fold_get (xs : list D) (acc : @Counter D) (d : D) :
  counter_get (fold_left counter_incr xs acc) d
  = counter_get acc d + count_occ eq_dec xs d.
Proof.
  revert acc. induction xs as [|x xs IH]; intro acc;
    cbn [fold_left count_occ].
  - apply plus_n_O.
  - rewrite IH. unfold counter_incr. rewrite counter_get_set.
    destruct (eq_dec x d) as [E|Hne]; [subst x|reflexivity].
    rewrite <- Nat.add_assoc. reflexivity.
Qed.

Lemma counter_fold_keys (xs : list D) (acc : @Counter D) (d : D) :
  In d (counter_keys (fold_left counter_incr xs acc)) ->
  In d (counter_keys acc) \/ In d xs.
Proof.
  revert acc. induction xs as [|x xs IH]; intro acc; cbn [fold_left].
  - intro H. left. exact H.
  - intro H. apply IH in H. destruct H as [H|H]; [|right; right; exact H].
    unfold counter_incr in H. rewrite counter_keys_set in H.
    destruct (in_dec eq_dec x (counter_keys acc)); [left; exact H|].
    apply in_app_or in H. destruct H as [H|[<-|[]]].
    + left. exact H.
    + right. left. reflexivity.
Qed.

Lemma list_sum_ge {X : Type} (f : X -> nat) (l : list X) (x : X) :
  In x l -> f x <= list_sum (map f l).
Proof.
  induction l as [|a l IH]; [intros []|intros [E|H]].
  - subst a. change (list_sum (map f (x :: l)))
      with (f x + list_sum (map f l)). apply Nat.le_add_r.
  - change (list_sum (map f (a :: l))) with (f a + list_sum (map f l)).
    specialize (IH H). lia.
Qed.

Lemma has_pitch_true (pitch : P) (n : P * D) :
  has_pitch pitch n = true <-> fst n = pitch.
Proof.
  unfold has_pitch. destruct (eq_dec (fst n) pitch); split; intro H;
    try reflexivity; try assumption; try discriminate; contradiction.
Qed.

(** The body of the loop of generate_rhythms on a pitch some note has. *)
Lemma rhythm_for_known (notes : list (P * D)) (pitch : P) (g : Rng) :
  In pitch (map fst notes) ->
  exists d g',
    rhythm_for (rhythm_frequencies notes) pitch g = (inl (pitch, d), g')
    /\ In (pitch, d) notes.
Proof.
  intro Hin. unfold rhythm_for. rewrite rhythm_frequencies_get.
  destruct (in_dec eq_dec pitch (map fst notes)) as [_|H]; [|contradiction].
  set (ds := map snd (filter (has_pitch pitch) notes)).
  assert (Hds : exists d0, In d0 ds).
  { apply in_map_iff in Hin. destruct Hin as ([p d0] & E & Hn).
    cbn in E. subst p. exists d0. apply in_map_iff. exists (pitch, d0).
    split; [reflexivity|]. apply filter_In. split; [exact Hn|].
    apply has_pitch_true. reflexivity. }
  destruct Hds as [d0 Hd0].
  assert (Hpos : 1 <= counter_get (counter_of ds) d0).
  { unfold counter_of. rewrite counter_fold_get. cbn [counter_get].
    apply (count_occ_In eq_dec) in Hd0. lia. }
  assert (Hkey : In d0 (counter_keys (counter_of ds))).
  { apply counter_get_in. lia. }
  destruct (random_choices_total (counter_keys (counter_of ds))
              (map (counter_get (counter_of ds))
                 (counter_keys (counter_of ds))) g)
    as (d & g' & E).
  - intro E. rewrite E in Hkey. exact Hkey.
  - pose proof (list_sum_ge (counter_get (counter_of ds)) _ _ Hkey). lia.
  - cbv zeta. rewrite E. exists d, g'. split; [reflexivity|].
    apply random_choices_in in E. destruct E as (x & Ex & Hx).
    injection Ex as <-. unfold counter_of in Hx.
    apply counter_fold_keys in Hx. destruct Hx as [[]|Hx].
    unfold ds in Hx. apply in_map_iff in Hx.
    destruct Hx as ([p d'] & E1 & Hf). apply filter_In in Hf.
    destruct Hf as [Hn Hp]. apply has_pitch_true in Hp. cbn in E1, Hp.
    subst. exact Hn.
Qed.

(** The body of the loop of generate_rhythms on a pitch no note has. *)
Lemma rhythm_for_unknown (notes : list (P * D)) (pitch : P) (g : Rng) :
  ~ In pitch (map fst notes) ->
  rhythm_for (rhythm_frequencies notes) pitch g = (inr KeyError, g).
Proof.
  intro Hnin. unfold rhythm_for. rewrite rhythm_frequencies_get.
  destruct (in_dec eq_dec pitch (map fst notes)); [contradiction|].
  reflexivity.
Qed.

(** X15. Over performed pitches that are all pitches of the notes,
    generate_rhythms raises nothing and yields one note per performed
    pitch, with that pitch, in order; every note it yields has a pitch
    and a duration that some input note has together. *)
Theorem X15_generate_rhythms_known_pitches (notes : list (P * D))
  (performed_pitches : list P) (g : Rng) :
  (forall p, In p performed_pitches -> In p (map fst notes)) ->
  exists out g',
    generate_rhythms notes performed_pitches g = (out, None, g')
    /\ map fst out = performed_pitches
    /\ forall n, In n out -> In n notes.
Proof.
  unfold generate_rhythms. revert g.
  induction performed_pitches as [|p rest IH]; intros g H.
  - exists [], g. split; [reflexivity|]. split; [reflexivity|].
    intros n [].
  - cbn [rhythms_loop].
    destruct (rhythm_for_known notes p g (H p (or_introl eq_refl)))
      as (d & g1 & E & Hn).
    rewrite E.
    destruct (IH g1 (fun q Hq => H q (or_intror Hq)))
      as (out & g' & E2 & Hm & Hall).
    rewrite E2. exists ((p, d) :: out), g'.
    split; [reflexivity|]. split; [cbn; f_equal; exact Hm|].
    intros n [<-|Hi]; [exact Hn|apply Hall; exact Hi].
Qed.

(** X16. At the first performed pitch that no input note has,
    generate_rhythms raises [KeyError] (the lookup in its plain [dict]),
    having yielded a note for each pitch before it and drawn nothing for
    the failing one; the pitches after it are never read. *)
Theorem X16_generate_rhythms_unknown_pitch (notes : list (P * D))
  (pre : list P) (p : P) (post : list P) (g : Rng) :
  (forall q, In q pre -> In q (map fst notes)) ->
  ~ In p (map fst notes) ->
  exists out g',
    generate_rhythms notes (pre ++ p :: post) g = (out, Some KeyError, g')
    /\ generate_rhythms notes pre g = (out, None, g')
    /\ map fst out = pre.
Proof.
  unfold generate_rhythms. intros H Hp. revert g.
  induction pre as [|q rest IH]; intro g.
  - exists [], g. cbn [app rhythms_loop].
    rewrite (rhythm_for_unknown notes p g Hp).
    split; [reflexivity|]. split; reflexivity.
  - cbn [app rhythms_loop].
    destruct (rhythm_for_known notes q g (H q (or_introl eq_refl)))
      as (d & g1 & E & Hn).
    rewrite E.
    destruct (IH (fun r Hr => H r (or_intror Hr)) g1)
      as (out & g' & E2 & E3 & Hm).
    rewrite E2, E3. exists ((q, d) :: out), g'.
    split; [reflexivity|]. split; [reflexivity|].
    cbn. f_equal. exact Hm.
Qed.

Lemma next_item_within {T : Type} {T_eq_dec : Hashable T} (t : @Table T)
  (s s1 : @Gen T) (x : T) (fuel : nat) :
  within t s -> next fuel s = Item x s1 ->
  within t s1 /\ In x (symbols t).
Proof.
  intros Hw E. apply next_steps in E.
  pose proof (within_steps _ _ _ _ E Hw) as Hw1.
  split; [exact Hw1|]. apply (proj1 Hw1).
  rewrite (steps_emitted _ _ _ E). apply in_or_app. right. left.
  reflexivity.
Qed.

Lemma dependent_take_alive (notes : list (P * D)) (k fuel n : nat)
  (s : @Gen P) :
  good_table (calculate_frequencies (map fst notes) k) k ->
  alive (calculate_frequencies (map fst notes) k) k s ->
  within (calculate_frequencies (map fst notes) k) s ->
  5 <= fuel ->
  exists out,
    dependent_take notes fuel n s = (out, None)
    /\ length out = n
    /\ forall note, In note out -> In note notes.
Proof.
  intros Hg Ha Hw Hf. revert s Ha Hw.
  induction n as [|n IH]; intros s Ha Hw.
  - exists []. split; [reflexivity|]. split; [reflexivity|]. intros ? [].
  - cbn [dependent_take]. unfold dependent_next.
    destruct fuel as [|f]; [lia|].
    destruct (alive_next _ k f s Hg Ha) as (x & s1 & E & Ha1).
    { pose proof (rank_bound s). lia. }
    rewrite E.
    destruct (next_item_within _ _ _ _ _ Hw E) as [Hw1 Hx].
    apply symbols_built in Hx.
    destruct (rhythm_for_known notes x (rng (world s1)) Hx)
      as (d & g' & Er & Hn).
    rewrite Er.
    destruct (IH (with_world (with_rng g' (world s1)) s1) Ha1 Hw1)
      as (out & Eo & Hl & Hall).
    rewrite Eo. exists ((x, d) :: out).
    split; [reflexivity|]. split; [cbn; f_equal; exact Hl|].
    intros note [<-|Hi]; [exact Hn|apply Hall; exact Hi].
Qed.

(** X17. On more than [k] starting notes,
    generate_random_music_dependent_duration never raises (in particular
    the lookup of generate_rhythms never meets a pitch it does not know),
    never ends and never hangs; every note it yields pairs a pitch with a
    duration that some starting note has with that pitch. *)
Theorem X17_dependent_duration_yields_starting_notes
  (starting_notes : list (P * D)) (k : nat) (mixup : option Z)
  (w : @World P) (fuel n : nat) :
  k < length starting_notes -> 5 <= fuel ->
  exists out,
    dependent_take starting_notes fuel n
      (dependent_duration starting_notes k mixup w) = (out, None)
    /\ length out = n
    /\ forall note, In note out -> In note starting_notes.
Proof.
  intros Hk Hf. unfold dependent_duration, generate_random_stream.
  apply (dependent_take_alive starting_notes k).
  - apply good_table_built. rewrite length_map. exact Hk.
  - apply alive_generate.
  - apply within_generate.
  - exact Hf.
Qed.

Lemma independent_take_alive (notes : list (P * D)) (k fuel n : nat)
  (sp : @Gen P) (sd : @Gen D) :
  good_table (calculate_frequencies (map fst notes) k) k ->
  good_table (calculate_frequencies (map snd notes) k) k ->
  alive (calculate_frequencies (map fst notes) k) k sp ->
  within (calculate_frequencies (map fst notes) k) sp ->
  alive (calculate_frequencies (map snd notes) k) k sd ->
  within (calculate_frequencies (map snd notes) k) sd ->
  5 <= fuel ->
  exists out,
    independent_take fuel n (sp, sd) = (out, None)
    /\ length out = n
    /\ forall p d,
         In (p, d) out -> In p (map fst notes) /\ In d (map snd notes).
Proof.
  intros Hgp Hgd Hap Hwp Had Hwd Hf. revert sp sd Hap Hwp Had Hwd.
  induction n as [|n IH]; intros sp sd Hap Hwp Had Hwd.
  - exists []. split; [reflexivity|]. split; [reflexivity|]. intros ? ? [].
  - cbn [independent_take]. unfold independent_next.
    destruct fuel as [|f]; [lia|].
    destruct (alive_next _ k f sp Hgp Hap) as (x & sp1 & E & Hap1).
    { pose proof (rank_bound sp). lia. }
    rewrite E.
    destruct (next_item_within _ _ _ _ _ Hwp E) as [Hwp1 Hx].
    apply symbols_built in Hx.
    destruct (alive_next _ k f
                (with_world (with_rng (rng (world sp1)) (world sd)) sd)
                Hgd Had)
      as (y & sd1 & E' & Had1).
    { pose proof (rank_bound
                    (with_world (with_rng (rng (world sp1)) (world sd)) sd)).
      lia. }
    rewrite E'.
    destruct (next_item_within _ _ _ _ _
                (Hwd : within _ (with_world _ sd)) E') as [Hwd1 Hy].
    apply symbols_built in Hy.
    destruct (IH (with_world (with_rng (rng (world sd1)) (world sp1)) sp1)
                sd1 Hap1 Hwp1 Had1 Hwd1)
      as (out & Eo & Hl & Hall).
    rewrite Eo. exists ((x, y) :: out).
    split; [reflexivity|]. split; [cbn; f_equal; exact Hl|].
    intros p d [Ei|Hi].
    + injection Ei as <- <-. split; assumption.
    + apply Hall. exact Hi.
Qed.

(** X18. On more than [k] starting notes,
    generate_random_music_independent_duration never raises, never ends
    and never hangs; every note it yields has the pitch of some starting
    note and the duration of some starting note. *)
Theorem X18_independent_duration_yields_known_parts
  (starting_notes : list (P * D)) (k : nat) (mixup : option Z)
  (g : Rng) (fuel n : nat) :
  k < length starting_notes -> 5 <= fuel ->
  exists out,
    independent_take fuel n
      (independent_duration starting_notes k mixup g) = (out, None)
    /\ length out = n
    /\ forall p d,
         In (p, d) out ->
         In p (map fst starting_notes) /\ In d (map snd starting_notes).
Proof.
  intros Hk Hf. unfold independent_duration, generate_random_stream.
  apply (independent_take_alive starting_notes k).
  - apply good_table_built. rewrite length_map. exact Hk.
  - apply good_table_built. rewrite length_map. exact Hk.
  - apply alive_generate.
  - apply within_generate.
  - apply alive_generate.
  - apply within_generate.
  - exact Hf.
Qed.

End MusicMore.

Lemma X15_generate_rhythms_known_pitches_witness :
  exists out g',
    generate_rhythms [(A, B); (B, C); (A, C)] [B; A; A] [0; 1] = (out, None, g')
    /\ map fst out = [B; A; A]
    /\ forall n, In n out -> In n [(A, B); (B, C); (A, C)].
Proof.
  apply (X15_generate_rhythms_known_pitches
           [(A, B); (B, C); (A, C)] [B; A; A] [0; 1]).
  intros p [<-|[<-|[<-|[]]]]; simpl; auto.
Defined.

Lemma X16_generate_rhythms_unknown_pitch_witness :
  exists out g',
    generate_rhythms [(A, B); (B, C); (A, C)] ([B; A] ++ C :: [A]) [0; 1]
    = (out, Some KeyError, g')
    /\ generate_rhythms [(A, B); (B, C); (A, C)] [B; A] [0; 1]
       = (out, None, g')
    /\ map fst out = [B; A].
Proof.
  apply (X16_generate_rhythms_unknown_pitch
           [(A, B); (B, C); (A, C)] [B; A] C [A] [0; 1]).
  - intros q [<-|[<-|[]]]; simpl; auto.
  - simpl. intros [H|[H|[H|[]]]]; discriminate H.
Defined.

Lemma X17_dependent_duration_yields_starting_notes_witness :
  exists out,
    dependent_take [(A, B); (B, C); (A, C)] 5 3
      (dependent_duration [(A, B); (B, C); (A, C)] 1 None (w0 [1]))
    = (out, None)
    /\ length out = 3
    /\ forall note, In note out -> In note [(A, B); (B, C); (A, C)].
Proof.
  apply (X17_dependent_duration_yields_starting_notes
           [(A, B); (B, C); (A, C)] 1 None (w0 [1]) 5 3).
  - simpl. lia.
  - lia.
Defined.

Lemma X18_independent_duration_yields_known_parts_witness :
  exists out,
    independent_take 5 3
      (independent_duration [(A, B); (B, C); (A, C)] 1 None [1])
    = (out, None)
    /\ length out = 3
    /\ forall p d,
         In (p, d) out ->
         In p (map fst [(A, B); (B, C); (A, C)])
         /\ In d (map snd [(A, B); (B, C); (A, C)]).
Proof.
  apply (X18_independent_duration_yields_known_parts
           [(A, B); (B, C); (A, C)] 1 None [1] 5 3).
  - simpl. lia.
  - lia.
Defined.

(** * The game of markov_rock_paper_scissors.py *)

Section RockPaperScissorsMore.

Import String.
Import RockPaperScissors.

Lemma predict_from_history_item {T : Type} {T_eq_dec : Hashable T}
  (h : list T) (k : nat) (w : @World T) :
  h <> [] ->
  exists x w', predict_from_history h k w = (Ret x, w') /\ In x h.
Proof.
  intro Hh.
  assert (Hx : exists x, fst (predict_from_history h k w) = Ret x /\ In x h).
  { rewrite predict_from_history_fst.
    pose proof (predict_outcomes (calculate_frequencies h k)
                  (slice_last h k) w) as (_ & H2 & H3).
    destruct (successors (calculate_frequencies h k) (slice_last h k))
      as [|e l] eqn:Hs.
    - destruct (H3 eq_refl (slice_last_nonempty h k Hh)) as (x & Hx & Hin).
      exists x. split; [exact Hx|]. eapply slice_last_incl; eauto.
    - destruct H2 as (x & Hx & Hin); [discriminate|].
      exists x. split; [exact Hx|].
      eapply successor_in_history. rewrite Hs. exact Hin. }
  destruct Hx as (x & Hx & Hin).
  destruct (predict_from_history h k w) as [r w'].
  cbn in Hx. subst r. exists x, w'. split; [reflexivity|exact Hin].
Qed.

Lemma legal_cases (m : string) :
  legal m -> m = "r"%string \/ m = "s"%string \/ m = "p"%string.
Proof.
  intros [E|[E|[E|[]]]]; symmetry in E; auto.
Qed.

(** The two dictionaries on a move of the game. *)
Lemma loses_to_legal (m : string) :
  legal m ->
  exists c l,
    dict_get loses_to m = Some c
    /\ dict_get beats c = Some m
    /\ dict_get loses_to c = Some l
    /\ legal c.
Proof.
  intro H. apply legal_cases in H. destruct H as [-> | [-> | ->]].
  - exists "p"%string, "s"%string. repeat split; cbn; auto.
  - exists "r"%string, "p"%string. repeat split; cbn; auto.
  - exists "s"%string, "r"%string. repeat split; cbn; auto.
Qed.

Lemma loses_to_inv (m c : string) :
  dict_get loses_to m = Some c ->
  (m = "s"%string /\ c = "r"%string)
  \/ (m = "p"%string /\ c = "s"%string)
  \/ (m = "r"%string /\ c = "p"%string).
Proof.
  change loses_to
    with [("s"%string, "r"%string); ("p"%string, "s"%string);
          ("r"%string, "p"%string)].
  cbn [dict_get].
  destruct (eq_dec "s"%string m) as [<-|_];
    [intro E; injection E as <-; auto|].
  destruct (eq_dec "p"%string m) as [<-|_];
    [intro E; injection E as <-; auto|].
  destruct (eq_dec "r"%string m) as [<-|_];
    [intro E; injection E as <-; auto|].
  discriminate.
Qed.

Lemma predict_user_legal (h : list string) (w : @World string) :
  Forall legal h ->
  exists m w1,
    predict_user h w = (inl m, w1)
    /\ legal m
    /\ (h <> [] -> In m h).
Proof.
  intro Hall. destruct h as [|a h'].
  - unfold predict_user. cbn [List.length Nat.ltb Nat.leb].
    unfold random_choice. cbn [map fst beats].
    destruct (randbelow _ (rng w)) as [idx g'].
    eexists. eexists. split; [reflexivity|]. split.
    + destruct idx as [|[|[|[|n]]]]; cbn; auto.
    + intro H. contradiction H. reflexivity.
  - unfold predict_user.
    change (0 <? List.length (a :: h')) with true. cbv iota.
    destruct (predict_from_history_item (a :: h')
                (Nat.min (List.length (a :: h') - 1) 3) w)
      as (x & w1 & E & Hin); [discriminate|].
    rewrite E.
    assert (Hx : legal x) by (eapply Forall_forall; eauto).
    pose proof (legal_cases x Hx) as Hc.
    destruct Hc as [-> | [-> | ->]]; cbn [unpack_one];
      eexists; eexists; (split; [reflexivity|]); split; auto.
Qed.

(** X19. On a history of moves of the game, a pass of the loop of
    play_game raises nothing ([loses_to] and [beats] are only looked up
    on moves of the game): the prediction is a move of the game, taken
    from the history when there is one; the computer plays the move that
    beats the prediction; the user's move is appended to the history,
    which stays a history of moves when the player's move is one. *)
Theorem X19_play_game_pass_never_raises
  (player_play : Rng -> string * Rng) (st : Game) (w : @World string) :
  Forall legal (history st) ->
  exists st' rep w',
    play_game_pass player_play st w = (inl (st', rep), w')
    /\ history st' = history st ++ [user_choice rep]
    /\ turn st' = turn st + 1
    /\ legal (user_prediction rep)
    /\ (history st <> [] -> In (user_prediction rep) (history st))
    /\ dict_get beats (computer_choice rep) = Some (user_prediction rep)
    /\ ((forall g, legal (fst (player_play g))) ->
        Forall legal (history st')).
Proof.
  intro Hall. unfold play_game_pass.
  destruct (predict_user_legal (history st) w Hall)
    as (m & w1 & E & Hm & Hin).
  rewrite E.
  destruct (loses_to_legal m Hm) as (c & l & E1 & E2 & E3 & Hc).
  rewrite E1.
  pose proof (fun H : forall g, legal (fst (player_play g)) =>
                H (rng w1)) as Hu.
  destruct (player_play (rng w1)) as [u g]. cbv zeta.
  rewrite E2, E3.
  assert (Hh : (forall g0, legal (fst (player_play g0))) ->
               Forall legal (history st ++ [u])).
  { intro H. apply Forall_app. split; [exact Hall|].
    constructor; [exact (Hu H)|constructor]. }
  destruct (string_dec m u); [|destruct (string_dec l u)];
    eexists; eexists; eexists; (split; [reflexivity|]);
    cbn [history turn user_choice user_prediction computer_choice];
    repeat split; auto.
Qed.

(** X20. Whenever a pass of the loop of play_game reports, the computer
    has played the move that beats its prediction; it says it wins, and
    counts a win, exactly when the user plays the predicted move; it says
    tie exactly when a user who plays a move of the game plays the
    computer's move; and it counts a loss otherwise. *)
Theorem X20_computer_wins_when_prediction_is_right
  (player_play : Rng -> string * Rng) (st st' : Game) (rep : Report)
  (w w' : @World string) :
  play_game_pass player_play st w = (inl (st', rep), w') ->
  dict_get beats (computer_choice rep) = Some (user_prediction rep)
  /\ (said rep = Win <-> user_choice rep = user_prediction rep)
  /\ (legal (user_choice rep) ->
      (said rep = Tie <-> user_choice rep = computer_choice rep))
  /\ wins st' = wins st + (match said rep with Win => 1 | _ => 0 end)
  /\ losses st' = losses st + (match said rep with Lose => 1 | _ => 0 end).
Proof.
  unfold play_game_pass.
  destruct (predict_user (history st) w) as [[m|f] w1]; [|discriminate].
  destruct (dict_get loses_to m) as [c|] eqn:El; [|discriminate].
  destruct (player_play (rng w1)) as [u g]. cbv zeta.
  apply loses_to_inv in El.
  assert (Hfin : forall (b l : string),
             dict_get beats c = Some b -> dict_get loses_to c = Some l ->
             b = m -> l <> m -> l <> c -> m <> c ->
             (legal u -> u = m \/ u = l \/ u = c) ->
             match dict_get beats c with
             | Some beaten =>
                 if string_dec beaten u
                 then (inl (mkGame (turn st + 1) (wins st + 1) (losses st)
                              (history st ++ [u]),
                            mkReport Win c u m), with_rng g w1)
                 else
                   match dict_get loses_to c with
                   | Some beater =>
                       if string_dec beater u
                       then (inl (mkGame (turn st + 1) (wins st)
                                    (losses st + 1) (history st ++ [u]),
                                  mkReport Lose c u m), with_rng g w1)
                       else (inl (mkGame (turn st + 1) (wins st) (losses st)
                                    (history st ++ [u]),
                                  mkReport Tie c u m), with_rng g w1)
                   | None => (inr KeyError, with_rng g w1)
                   end
             | None => (inr KeyError, with_rng g w1)
             end = (inl (st', rep), w') ->
             dict_get beats (computer_choice rep)
             = Some (user_prediction rep)
             /\ (said rep = Win <-> user_choice rep = user_prediction rep)
             /\ (legal (user_choice rep) ->
                 (said rep = Tie <-> user_choice rep = computer_choice rep))
             /\ wins st' = wins st
                           + (match said rep with Win => 1 | _ => 0 end)
             /\ losses st' = losses st
                             + (match said rep with Lose => 1 | _ => 0 end)).
  { intros b l Eb Elo Hb Hlm Hlc Hmc Hcov. rewrite Eb, Elo. subst b.
    destruct (string_dec m u) as [E1|N1];
      [|destruct (string_dec l u) as [E2|N2]];
      intro H; injection H as <- <- <-;
      cbn [said user_choice user_prediction computer_choice wins losses];
      (split; [exact Eb|]).
    - split; [split; intro; congruence|].
      split; [intros _; split; intro; congruence|].
      split; [reflexivity|apply plus_n_O].
    - split; [split; intro; congruence|].
      split; [intros _; split; intro; congruence|].
      split; [apply plus_n_O|reflexivity].
    - split; [split; intro; congruence|].
      split; [|split; apply plus_n_O].
      intro Hl. split; [intros _|reflexivity].
      destruct (Hcov Hl) as [?|[?|?]]; congruence. }
  destruct El as [[-> ->] | [[-> ->] | [-> ->]]].
  - apply (Hfin "s"%string "p"%string); try reflexivity; try discriminate.
    intro Hl. apply legal_cases in Hl. tauto.
  - apply (Hfin "p"%string "r"%string); try reflexivity; try discriminate.
    intro Hl. apply legal_cases in Hl. tauto.
  - apply (Hfin "r"%string "s"%string); try reflexivity; try discriminate.
    intro Hl. apply legal_cases in Hl. tauto.
Qed.

Lemma X19_play_game_pass_never_raises_witness :
  exists st' rep w',
    play_game_pass (fun g : Rng => ("s"%string, g))
      (mkGame 2 0 0 ["r"%string; "p"%string]) (mkWorld [] [])
    = (inl (st', rep), w')
    /\ history st'
       = history (mkGame 2 0 0 ["r"%string; "p"%string])
         ++ [user_choice rep]
    /\ turn st' = turn (mkGame 2 0 0 ["r"%string; "p"%string]) + 1
    /\ legal (user_prediction rep)
    /\ (history (mkGame 2 0 0 ["r"%string; "p"%string]) <> [] ->
        In (user_prediction rep)
           (history (mkGame 2 0 0 ["r"%string; "p"%string])))
    /\ dict_get beats (computer_choice rep) = Some (user_prediction rep)
    /\ ((forall g : Rng, legal (fst ((fun g : Rng => ("s"%string, g)) g))) ->
        Forall legal (history st')).
Proof.
  apply (X19_play_game_pass_never_raises (fun g : Rng => ("s"%string, g))
           (mkGame 2 0 0 ["r"%string; "p"%string]) (mkWorld [] [])).
  repeat (apply Forall_cons; [unfold legal; simpl; tauto|]).
  apply Forall_nil.
Defined.

Lemma X20_computer_wins_when_prediction_is_right_witness :
  dict_get beats "s"%string = Some "p"%string
  /\ (Tie = Win <-> "s"%string = "p"%string)
  /\ (legal "s"%string -> (Tie = Tie <-> "s"%string = "s"%string))
  /\ 0 = 0 + 0
  /\ 0 = 0 + 0.
Proof.
  apply (X20_computer_wins_when_prediction_is_right
           (fun g : Rng => ("s"%string, g))
           (mkGame 2 0 0 ["r"%string; "p"%string])
           (mkGame 3 0 0 ["r"%string; "p"%string; "s"%string])
           (mkReport Tie "s"%string "s"%string "p"%string)
           (mkWorld [] []) (mkWorld [] [Err])).
  reflexivity.
Defined.

End RockPaperScissorsMore.
